(** * cpptimer: a shallow embedding of [src/cpptimer.h]

    The class [CppTimer] keeps a map of start times keyed by
    (tag, OpenMP thread number), two parallel vectors holding the tags and
    the elapsed microseconds of the closed intervals, and a map from tag to
    (mean, M2, count) which [aggregate] updates with Welford's algorithm.

    Conventions of the embedding.
    - [std::map] is a [gmap]; where the code iterates over a map the keys
      are visited in the order of [operator<], which is written out.
    - [std::vector] is a [list]; [operator[]] outside the bounds is
      undefined behaviour and is modelled by [None].
    - [double] is the binary64 type [PrimFloat.float]; the unsigned integer
      types are [Z] with their wrap-around written out.
    - [hr_clock::now()] and [omp_get_thread_num()] are inputs of the calls.
    - [warn] comes from [chameleon.h]; the messages passed to it are
      returned by the operations, in the order of the calls.
    - Threads take steps one at a time; a block under [#pragma omp critical]
      is entered and left, and no two threads are inside such blocks at
      the same time. *)

From Stdlib Require Import ZArith String Ascii List Floats Lia OrderedTypeEx.
From stdpp Require Import gmap strings list sorting.

Local Open Scope Z_scope.

(** ** Machine integers and doubles *)

(** [unsigned int], [unsigned long long int] and [unsigned long int]
    (LP64 data model). *)
Definition UINT_BITS : Z := 32.
Definition ULLONG_BITS : Z := 64.
Definition ULONG_BITS : Z := 64.

Definition to_uint (z : Z) : Z := z mod 2 ^ UINT_BITS.
Definition to_ullong (z : Z) : Z := z mod 2 ^ ULLONG_BITS.
Definition to_ulong (z : Z) : Z := z mod 2 ^ ULONG_BITS.

(** Conversion of an integer to [double]: round to nearest, ties to even. *)
Definition to_double (z : Z) : float :=
  SF2Prim (binary_normalize prec emax z 0 false).

(** Ticks of [hr_clock] per microsecond: the clock counts nanoseconds. *)
Definition hr_clock_ticks_per_us : Z := 1000.

(** A reading of [hr_clock] and a difference of two readings are signed
    64-bit counts of ticks. *)
Definition INT64_BITS : Z := 64.

Definition to_int64 (z : Z) : Z :=
  (z + 2 ^ (INT64_BITS - 1)) mod 2 ^ INT64_BITS - 2 ^ (INT64_BITS - 1).

(** [now - start] on two readings: the subtraction of the signed 64-bit
    counts, which wraps around when the readings are [2 ^ 63] ticks or
    more apart. *)
Definition clock_diff (now start : Z) : Z := to_int64 (now - start).

(** [duration_cast<microseconds>(d).count()]: integer division truncating
    towards zero. *)
Definition duration_cast_us (d : Z) : Z := Z.quot d hr_clock_ticks_per_us.

(** ** The class [CppTimer] *)

(** A key of [tics] is a [keypair], a pair of a tag and a thread number; an
    entry of [data] is a tuple (mean, M2, count). *)

Record CppTimer := mkCppTimer {
  tics : gmap (string * Z) Z;
  tags : list string;
  durations : list Z;
  data : gmap string (float * float * Z);
  name : string;
  verbose : bool
}.

(** The four constructors. *)
Inductive ctor_args :=
| Ctor_default
| Ctor_name (n : string)
| Ctor_verbose (v : bool)
| Ctor_name_verbose (n : string) (v : bool).

Definition ctor_name (a : ctor_args) : string :=
  match a with
  | Ctor_name n | Ctor_name_verbose n _ => n
  | _ => "times"%string
  end.

Definition ctor_verbose (a : ctor_args) : bool :=
  match a with
  | Ctor_verbose v | Ctor_name_verbose _ v => v
  | _ => true
  end.

Definition construct (a : ctor_args) : CppTimer :=
  mkCppTimer ∅ [] [] ∅ (ctor_name a) (ctor_verbose a).

Definition make_key (tag : string) (thread_num : Z) : string * Z :=
  (tag, to_uint thread_num).

(** *** Messages *)

Definition dquote : string := String "034"%char EmptyString.
Definition newline : string := String "010"%char EmptyString.

Definition msg_not_started (tag : string) : string :=
  ("Timer " +:+ dquote +:+ tag +:+ dquote +:+ " not started yet. " +:+ newline)
  +:+ ("Use tic(" +:+ dquote +:+ tag +:+ dquote +:+ ") to start the timer.").

Definition msg_not_stopped (tag : string) : string :=
  ("Timer " +:+ dquote +:+ tag +:+ dquote +:+ " not stopped yet. " +:+ newline)
  +:+ ("Use toc(" +:+ dquote +:+ tag +:+ dquote +:+ ") to stop the timer.").

(** Modelled from the spec: [warn] is declared in [chameleon.h], which is
    not part of the sources; the spec has it as the injected capability
    emit-diagnostic(message), which is advisory and never fails.  A call
    hands its message over, and the messages of an operation are listed in
    the order of the calls. *)
Definition warn (msg : string) : list string := [msg].

(** *** tic *)

Definition tic (tag : string) (thread_num now : Z) (s : CppTimer) : CppTimer :=
  let key := make_key tag thread_num in
  mkCppTimer (<[key := now]> (tics s)) (tags s) (durations s) (data s)
             (name s) (verbose s).

(** *** toc *)

(** The lookup [tics.find(key)]. *)
Definition toc_find (key : string * Z) (s : CppTimer) : option Z :=
  tics s !! key.

(** The critical section of [toc], entered with the start time found. *)
Definition toc_critical (key : string * Z) (start now : Z) (s : CppTimer)
  : CppTimer :=
  let durations1 :=
    durations s ++ [to_ullong (duration_cast_us (clock_diff now start))] in
  let tics1 := delete key (tics s) in
  let tags1 := tags s ++ [key.1] in
  mkCppTimer tics1 tags1 durations1 (data s) (name s) (verbose s).

Definition toc_warning (key : string * Z) (s : CppTimer) : list string :=
  if verbose s then warn (msg_not_started key.1) else [].

Definition toc (tag : string) (thread_num now : Z) (s : CppTimer)
  : CppTimer * list string :=
  let key := make_key tag thread_num in
  match toc_find key s with
  | None => (s, toc_warning key s)
  | Some start => (toc_critical key start now s, [])
  end.


(** *** aggregate *)

(** [operator<] of [std::string] and of [keypair]. *)
Definition tag_le (a b : string) : Prop := String.leb a b = true.

Definition keypair_leb (a b : string * Z) : bool :=
  match String.compare a.1 b.1 with
  | Lt => true
  | Eq => a.2 <=? b.2
  | Gt => false
  end.

Definition keypair_le (a b : string * Z) : Prop := keypair_leb a b = true.

#[global] Instance tag_le_dec a b : Decision (tag_le a b).
Proof. unfold tag_le. apply _. Defined.

#[global] Instance keypair_le_dec a b : Decision (keypair_le a b).
Proof. unfold keypair_le. apply _. Defined.

(** The keys of [tics] in the order in which [for (auto const &tic : tics)]
    visits them. *)
Definition tics_keys (m : gmap (string * Z) Z) : list (string * Z) :=
  merge_sort keypair_le (map fst (map_to_list m)).

(** The warnings about timers that were not stopped. *)
Definition aggregate_warnings (s : CppTimer) : list string :=
  if verbose s
  then tics_keys (tics s) ≫= (λ key : string * Z, warn (msg_not_stopped key.1))
  else [].

(** [std::unique]: of each run of equal neighbours the first is kept. *)
Fixpoint unique_from (x : string) (l : list string) : list string :=
  match l with
  | [] => [x]
  | y :: l' => if String.eqb x y then unique_from x l' else x :: unique_from y l'
  end.

Definition unique (l : list string) : list string :=
  match l with
  | [] => []
  | x :: l' => unique_from x l'
  end.

Definition unique_tags (tgs : list string) : list string :=
  unique (merge_sort tag_le tgs).

(** One step of Welford's algorithm, the body of [if (tags[j] == tag)]. *)
Definition welford (st : float * float * Z) (d : Z) : float * float * Z :=
  let '(mean, M2, count) := st in
  let count := to_ulong (count + 1) in
  let delta := (to_double d - mean)%float in
  let mean := (mean + delta / to_double count)%float in
  let M2 := (M2 + delta * (to_double d - mean))%float in
  (mean, M2, count).

(** A loop over a list whose body may run into undefined behaviour. *)
Fixpoint for_each {A B : Type} (body : A → B → option A) (a : A) (l : list B)
  : option A :=
  match l with
  | [] => Some a
  | x :: l' => a' ← body a x; for_each body a' l'
  end.

(** The body of the loop over [j]. *)
Definition update_step (tgs : list string) (durs : list Z) (tag : string)
    (st : float * float * Z) (j : nat) : option (float * float * Z) :=
  tj ← tgs !! j;
  if String.eqb tj tag
  then d ← durs !! j; Some (welford st d)
  else Some st.

Definition init_stat (dat : gmap string (float * float * Z)) (tag : string)
  : float * float * Z :=
  match dat !! tag with
  | None => (0%float, 0%float, 0)
  | Some (mean, M2, count) => (mean, M2, count)
  end.

(** The body of the loop over [i]. *)
Definition aggregate_tag (tgs : list string) (durs : list Z)
    (dat : gmap string (float * float * Z)) (tag : string)
  : option (gmap string (float * float * Z)) :=
  st ← for_each (update_step tgs durs tag) (init_stat dat tag)
                (seq 0 (length tgs));
  Some (<[tag := st]> dat).

Definition aggregate (s : CppTimer) : option (CppTimer * list string) :=
  let warnings := aggregate_warnings s in
  dat ← for_each (aggregate_tag (tags s) (durations s)) (data s)
                 (unique_tags (tags s));
  Some (mkCppTimer (tics s) [] [] dat (name s) (verbose s), warnings).

(** *** reset *)

Definition reset (s : CppTimer) : CppTimer :=
  mkCppTimer ∅ [] [] ∅ (name s) (verbose s).


(** ** Reading the two vectors as one log *)

(** The pairs (tags[j], durations[j]). *)
Definition duration_log (s : CppTimer) : list (string * Z) :=
  zip (tags s) (durations s).

(** The durations logged under [tag], in the order of the log. *)
Definition samples_of (tag : string) (log : list (string * Z)) : list Z :=
  (filter (λ p : string * Z, p.1 = tag) log).*2.

(** The entry of [tag] once the samples of the log are folded into it. *)
Definition merged_stat (dat : gmap string (float * float * Z))
    (log : list (string * Z)) (tag : string) : option (float * float * Z) :=
  if decide (tag ∈ log.*1)
  then Some (foldl welford (init_stat dat tag) (samples_of tag log))
  else dat !! tag.

(** The timer with the log replaced. *)
Definition with_log (s : CppTimer) (log : list (string * Z)) : CppTimer :=
  mkCppTimer (tics s) (log.*1) (log.*2) (data s) (name s) (verbose s).

(** ** Sequences of calls *)

(** A call of one of the four member functions, with what it reads from
    its environment: the thread number and the clock. *)
Inductive call :=
| Tic (tag : string) (thread_num now : Z)
| Toc (tag : string) (thread_num now : Z)
| Aggregate
| Reset.

Definition exec (c : call) (s : CppTimer) : option (CppTimer * list string) :=
  match c with
  | Tic tag thread_num now => Some (tic tag thread_num now s, [])
  | Toc tag thread_num now => Some (toc tag thread_num now s)
  | Aggregate => aggregate s
  | Reset => Some (reset s, [])
  end.

(** The calls are made one after the other; the warnings accumulate. *)
Fixpoint run (calls : list call) (s : CppTimer)
  : option (CppTimer * list string) :=
  match calls with
  | [] => Some (s, [])
  | c :: calls' =>
      r ← exec c s;
      r' ← run calls' r.1;
      Some (r'.1, r.2 ++ r'.2)
  end.

(** The start time under which [key] is open after the calls, read off the
    calls alone: the last [Tic] of the key, unless a [Toc] of the key or a
    [Reset] came after it. *)
Definition open_after (key : string * Z) (o : option Z) (c : call) : option Z :=
  match c with
  | Tic tag thread_num now =>
      if decide (make_key tag thread_num = key) then Some now else o
  | Toc tag thread_num now =>
      if decide (make_key tag thread_num = key) then None else o
  | Aggregate => o
  | Reset => None
  end.

Definition open_since (key : string * Z) (calls : list call) : option Z :=
  foldl (open_after key) None calls.

(** The pair (tag, elapsed microseconds) that a call of [toc] records. *)
Definition toc_record (tag : string) (thread_num now : Z) (s : CppTimer)
  : option (string * Z) :=
  start ← toc_find (make_key tag thread_num) s;
  Some (tag, to_ullong (duration_cast_us (clock_diff now start))).

(** The records made by the calls and not yet drained: every [Toc] that
    finds its key adds its record, [Aggregate] and [Reset] drop them all. *)
Definition record_call (c : call) (s : CppTimer) (log : list (string * Z))
  : list (string * Z) :=
  match c with
  | Tic _ _ _ => log
  | Toc tag thread_num now =>
      match toc_record tag thread_num now s with
      | Some r => log ++ [r]
      | None => log
      end
  | Aggregate | Reset => []
  end.

Fixpoint records (calls : list call) (s : CppTimer) (log : list (string * Z))
  : option (list (string * Z)) :=
  match calls with
  | [] => Some log
  | c :: calls' =>
      r ← exec c s;
      records calls' r.1 (record_call c s log)
  end.

(** A message names a tag when the tag occurs in it. *)
Definition names_tag (msg tag : string) : Prop :=
  ∃ pre post : string, msg = pre +:+ tag +:+ post.

(** The count of the entry of [tag], 0 when there is none. *)
Definition count_of (dat : gmap string (float * float * Z)) (tag : string) : Z :=
  (init_stat dat tag).2.

(** ** The class [ScopedTimer] *)

Record ScopedTimer := mkScopedTimer { st_tag : string }.

(** The default member initializer of [tag]. *)
Definition ScopedTimer_default_tag : string := "ScopedTimer".

(** The arguments of the constructors of [ScopedTimer].  The class
    declares [ScopedTimer(CppTimer &clock, std::string tag)]; the copy
    constructor is declared implicitly.  The reference [clock] is the
    timer that the operations act on. *)
Inductive ScopedTimer_args :=
| ST_clock_tag (tag : string)
| ST_copy (other : ScopedTimer).


(** What the constructor itself initialises the member [tag] with: the
    member initializer [tag(tag)] of the declared constructor, the member
    of the original in the copy constructor. *)
Definition mem_initializer (a : ScopedTimer_args) : option string :=
  match a with
  | ST_clock_tag tag => Some tag
  | ST_copy other => Some (st_tag other)
  end.

(** The default member initializer applies only where the constructor
    does not initialise the member. *)
Definition ScopedTimer_init (a : ScopedTimer_args) : ScopedTimer :=
  match mem_initializer a with
  | Some tag => mkScopedTimer tag
  | None => mkScopedTimer ScopedTimer_default_tag
  end.

(** The declared constructor calls [clock.tic(std::string(tag))]; the
    copy constructor has no body. *)
Definition ScopedTimer_ctor (a : ScopedTimer_args) (thread_num now : Z)
    (clock : CppTimer) : ScopedTimer * CppTimer :=
  let st := ScopedTimer_init a in
  match a with
  | ST_clock_tag _ => (st, tic (st_tag st) thread_num now clock)
  | ST_copy _ => (st, clock)
  end.

Definition ScopedTimer_dtor (st : ScopedTimer) (thread_num now : Z)
    (clock : CppTimer) : CppTimer * list string :=
  toc (st_tag st) thread_num now clock.

(** How control leaves a block. *)
Inductive exit_path := NormalExit | EarlyReturn | Unwinding.

(** The statements of a block: they act on the timer and leave the block
    one way or another. *)
Definition block_body : Type :=
  CppTimer → option (exit_path * CppTimer * list string).

(** [{ ScopedTimer t(clock, tag); body }]: the destructor runs when control
    leaves the block, whichever way. *)
Definition scoped_block (a : ScopedTimer_args) (thread_num t_in t_out : Z)
    (body : block_body) (clock : CppTimer)
  : option (exit_path * CppTimer * list string) :=
  let '(st, c1) := ScopedTimer_ctor a thread_num t_in clock in
  r ← body c1;
  let '(e, c2, w) := r in
  let '(c3, w') := ScopedTimer_dtor st thread_num t_out c2 in
  Some (e, c3, w ++ w').

(** [{ clock.tic(tag); body; clock.toc(tag); }]: the call of [toc] is
    reached only when the body ends normally. *)
Definition explicit_block (tag : string) (thread_num t_in t_out : Z)
    (body : block_body) (clock : CppTimer)
  : option (exit_path * CppTimer * list string) :=
  let c1 := tic tag thread_num t_in clock in
  r ← body c1;
  let '(e, c2, w) := r in
  match e with
  | NormalExit =>
      let '(c3, w') := toc tag thread_num t_out c2 in Some (e, c3, w ++ w')
  | _ => Some (e, c2, w)
  end.

(** A body that does nothing and ends normally. *)
Definition empty_body : block_body := λ clock, Some (NormalExit, clock, []).

(** The timers that sequences of calls lead to from a constructor. *)
Definition reachable (a : ctor_args) (s : CppTimer) : Prop :=
  ∃ calls w, run calls (construct a) = Some (s, w).

(** The timer with no interval open. *)
Definition without_tics (s : CppTimer) : CppTimer :=
  mkCppTimer ∅ (tags s) (durations s) (data s) (name s) (verbose s).

(** The calls that change the entry of [key] in [tics]. *)
Definition touches (key : string * Z) (c : call) : Prop :=
  match c with
  | Tic tag thread_num _ | Toc tag thread_num _ => make_key tag thread_num = key
  | Aggregate => False
  | Reset => True
  end.

#[global] Instance touches_dec key c : Decision (touches key c).
Proof. destruct c; simpl; apply _. Defined.

(** ** Threads *)

(** The calls a thread makes on the shared timer. *)
Inductive thread_op :=
| OpTic (tag : string)
| OpToc (tag : string).

(** A thread: its number, the calls it still has to make, the start time
    it has found when it is in [toc] past the lookup, and whether it is
    inside a critical section. *)
Record thread := mkThread {
  th_num : Z;
  th_prog : list thread_op;
  th_found : option Z;
  th_inside : bool
}.

(** The shared timer, the threads, the thread that is inside a critical
    section if any (the critical sections of the code have no name, so
    they all exclude each other), and the messages passed to [warn]. *)
Record config := mkConfig {
  shared : CppTimer;
  threads : list thread;
  lock : option nat;
  emitted : list string
}.

(** What a step leads to.  [DataRace]: the step reads [tics] outside the
    critical sections while another thread is inside one, where [tics] is
    written.  [NotEnabled]: the thread cannot take a step (it is done, or
    waits for the critical section). *)
Inductive result :=
| Next (c : config)
| DataRace
| NotEnabled.

Definition set_thread (i : nat) (t : thread) (c : config) : list thread :=
  <[i := t]> (threads c).

(** Thread [i] enters a critical section. *)
Definition enter_critical (i : nat) (t : thread) (c : config) : result :=
  match lock c with
  | Some _ => NotEnabled
  | None =>
      Next (mkConfig (shared c)
              (set_thread i (mkThread (th_num t) (th_prog t) (th_found t) true) c)
              (Some i) (emitted c))
  end.

(** Thread [i] takes its next step at clock reading [now].
    - [tic]: enter the critical section; then store the clock reading and
      leave.
    - [toc]: look the key up, outside the critical sections; without an
      entry, warn and return; with one, enter the critical section; then
      record the duration, erase the key, record the tag and leave. *)
Definition step (i : nat) (now : Z) (c : config) : result :=
  match threads c !! i with
  | None => NotEnabled
  | Some t =>
      match th_prog t with
      | [] => NotEnabled
      | OpTic tag :: rest =>
          if th_inside t
          then Next (mkConfig (tic tag (th_num t) now (shared c))
                       (set_thread i (mkThread (th_num t) rest None false) c)
                       None (emitted c))
          else enter_critical i t c
      | OpToc tag :: rest =>
          let key := make_key tag (th_num t) in
          match th_found t with
          | None =>
              match lock c with
              | Some _ => DataRace
              | None =>
                  match toc_find key (shared c) with
                  | None =>
                      Next (mkConfig (shared c)
                              (set_thread i (mkThread (th_num t) rest None false) c)
                              (lock c)
                              (emitted c ++ toc_warning key (shared c)))
                  | Some start =>
                      Next (mkConfig (shared c)
                              (set_thread i (mkThread (th_num t) (OpToc tag :: rest)
                                               (Some start) false) c)
                              (lock c) (emitted c))
                  end
              end
          | Some start =>
              if th_inside t
              then Next (mkConfig (toc_critical key start now (shared c))
                           (set_thread i (mkThread (th_num t) rest None false) c)
                           None (emitted c))
              else enter_critical i t c
          end
      end
  end.

(** A schedule names, step by step, the thread that moves and the clock
    reading it gets. *)
Fixpoint run_schedule (sched : list (nat * Z)) (c : config) : result :=
  match sched with
  | [] => Next c
  | (i, now) :: sched' =>
      match step i now c with
      | Next c' => run_schedule sched' c'
      | r => r
      end
  end.

Definition finished (c : config) : Prop :=
  Forall (λ t, th_prog t = []) (threads c).

(** Every thread calls [tic(tag)] and then [toc(tag)], once. *)
Definition tic_toc_thread (tag : string) (thread_num : Z) : thread :=
  mkThread thread_num [OpTic tag; OpToc tag] None false.

Definition tic_toc_config (a : ctor_args) (tag : string) (nums : list Z)
  : config :=
  mkConfig (construct a) (tic_toc_thread tag <$> nums) None [].

(** The threads that have made all their calls. *)
Definition done_count (ts : list thread) : nat :=
  length (filter (λ t, th_prog t = []) ts).

(** Where a thread that calls [tic(tag)] and then [toc(tag)] can be, and
    what [tics] holds for its key there. *)
Definition phase_ok (s : CppTimer) (tag : string) (t : thread) : Prop :=
  let key := make_key tag (th_num t) in
  (th_prog t = [OpTic tag; OpToc tag] ∧ th_found t = None ∧
   tics s !! key = None)
  ∨ (th_prog t = [OpToc tag] ∧ th_found t = None ∧ is_Some (tics s !! key))
  ∨ (th_prog t = [OpToc tag] ∧ is_Some (th_found t) ∧
     tics s !! key = th_found t)
  ∨ (th_prog t = [] ∧ th_found t = None ∧ tics s !! key = None).

(** What holds of every configuration that the threads of
    [tic_toc_config] reach. *)
Record jobs_inv (tag : string) (nums : list Z) (c : config) : Prop := {
  inv_nums : th_num <$> threads c = nums;
  inv_phase : Forall (phase_ok (shared c) tag) (threads c);
  inv_keys : ∀ key, is_Some (tics (shared c) !! key) →
                    ∃ t, t ∈ threads c ∧ th_prog t ≠ [] ∧
                         key = make_key tag (th_num t);
  inv_tags : tags (shared c) = replicate (done_count (threads c)) tag;
  inv_durations : length (durations (shared c)) = done_count (threads c);
  inv_emitted : emitted c = [];
  inv_data : data (shared c) = ∅
}.

(** ** Counting the closed intervals of a tag *)

(** Whether a call is a [toc] of [tag] that finds its key. *)
Definition closes (tag : string) (c : call) (s : CppTimer) : bool :=
  match c with
  | Toc t thread_num _ =>
      bool_decide (t = tag) && bool_decide (is_Some (toc_find (make_key t thread_num) s))
  | _ => false
  end.

(** The number of intervals of [tag] that the calls have closed since the
    last [Reset], starting from [n]. *)
Fixpoint closed_intervals (tag : string) (calls : list call) (s : CppTimer)
    (n : nat) : option nat :=
  match calls with
  | [] => Some n
  | c :: calls' =>
      r ← exec c s;
      closed_intervals tag calls' r.1
        (match c with
         | Reset => 0%nat
         | _ => if closes tag c s then S n else n
         end)
  end.

(** ** Ranges *)

Definition in_ulong_range (z : Z) : Prop := 0 ≤ z < 2 ^ ULONG_BITS.

(** The count of a tag and its samples still in the log add up to the
    number of closed intervals. *)
Definition tally_ok (tag : string) (s : CppTimer) (log : list (string * Z))
    (n : nat) : Prop :=
  tags s = log.*1 ∧ durations s = log.*2 ∧
  in_ulong_range (count_of (data s) tag) ∧
  to_ulong (count_of (data s) tag + Z.of_nat (length (samples_of tag log)))
  = to_ulong (Z.of_nat n).


(** A call of [tic] or of [toc]. *)
Definition is_tic_toc (c : call) : Prop :=
  match c with
  | Tic _ _ _ | Toc _ _ _ => True
  | Aggregate | Reset => False
  end.

(** [operator<] of [std::string], strict. *)
Definition tag_lt (a b : string) : Prop := String.ltb a b = true.

(** ** One thread alone *)


(** ** The order of tags and the vector [unique_tags] *)

Section TagOrder.

Lemma tag_le_refl (a : string) : tag_le a a.
Proof.
  destruct (String.leb_total a a); assumption.
Qed.

Lemma compare_Lt_lt (a b : string) :
  String.compare a b = Lt ↔ String_as_OT.lt a b.
Proof. apply String_as_OT.cmp_lt. Qed.

Lemma tag_le_cases (a b : string) :
  tag_le a b ↔ a = b ∨ String_as_OT.lt a b.
Proof.
  unfold tag_le, String.leb. split.
  - destruct (String.compare a b) eqn:E; intros H; try discriminate.
    + left. by apply String.compare_eq_iff.
    + right. by apply compare_Lt_lt.
  - intros [-> | H].
    + fold (String.leb b b). apply tag_le_refl.
    + apply compare_Lt_lt in H. by rewrite H.
Qed.

#[global] Instance tag_le_trans : Transitive tag_le.
Proof.
  intros a b c Hab Hbc.
  apply tag_le_cases in Hab, Hbc. apply tag_le_cases.
  destruct Hab as [-> | Hab]; [assumption |].
  destruct Hbc as [<- | Hbc]; [by right |].
  right. eapply String_as_OT.lt_trans; eassumption.
Qed.

#[global] Instance tag_le_total : Total tag_le.
Proof. intros a b. apply String.leb_total. Qed.

#[global] Instance tag_le_antisym : AntiSymm (=) tag_le.
Proof. intros a b. apply String.leb_antisym. Qed.

End TagOrder.

Lemma elem_of_unique_from (x y : string) (l : list string) :
  y ∈ unique_from x l ↔ y = x ∨ y ∈ l.
Proof.
  revert x. induction l as [| z l IH]; intros x; simpl.
  - rewrite list_elem_of_singleton, elem_of_nil. tauto.
  - destruct (String.eqb_spec x z) as [-> | Hne].
    + rewrite IH, elem_of_cons. tauto.
    + rewrite !elem_of_cons, IH. tauto.
Qed.

Lemma elem_of_unique (y : string) (l : list string) : y ∈ unique l ↔ y ∈ l.
Proof.
  destruct l as [| x l]; simpl; [done |].
  by rewrite elem_of_unique_from, elem_of_cons.
Qed.

Lemma NoDup_unique_from (x : string) (l : list string) :
  StronglySorted tag_le (x :: l) → NoDup (unique_from x l).
Proof.
  revert x. induction l as [| z l IH]; intros x Hs; simpl.
  - apply NoDup_singleton.
  - apply StronglySorted_inv in Hs as [Hs Hx].
    pose proof Hs as Hs'. apply StronglySorted_inv in Hs' as [Hl Hz].
    destruct (String.eqb_spec x z) as [-> | Hne].
    + apply IH. by constructor.
    + apply NoDup_cons. split; [| by apply IH].
      rewrite elem_of_unique_from. intros [-> | Hin]; [done |].
      apply Hne. apply (anti_symm tag_le).
      * by apply Forall_cons_1 in Hx as [? _].
      * rewrite Forall_forall in Hz. by apply Hz.
Qed.

Lemma NoDup_unique (l : list string) :
  StronglySorted tag_le l → NoDup (unique l).
Proof.
  destruct l as [| x l]; simpl; [intros _; apply NoDup_nil_2 |].
  apply NoDup_unique_from.
Qed.

Lemma elem_of_unique_tags (t : string) (tgs : list string) :
  t ∈ unique_tags tgs ↔ t ∈ tgs.
Proof.
  unfold unique_tags. rewrite elem_of_unique.
  by rewrite merge_sort_Permutation.
Qed.

Lemma NoDup_unique_tags (tgs : list string) : NoDup (unique_tags tgs).
Proof.
  apply NoDup_unique, StronglySorted_merge_sort; apply _.
Qed.

Lemma elem_of_tics_keys (key : string * Z) (m : gmap (string * Z) Z) :
  key ∈ tics_keys m ↔ is_Some (m !! key).
Proof.
  unfold tics_keys. rewrite merge_sort_Permutation.
  rewrite list_elem_of_fmap. split.
  - intros [[k v] [-> Hin]]. apply elem_of_map_to_list in Hin. eauto.
  - intros [v Hv]. exists (key, v). split; [done |].
    by apply elem_of_map_to_list.
Qed.

Lemma tics_keys_empty : tics_keys ∅ = [].
Proof. unfold tics_keys. by rewrite map_to_list_empty. Qed.
(** ** The loops of [aggregate] *)

Lemma for_each_ext {A B : Type} (f g : A → B → option A) (l : list B) (a : A) :
  (∀ a' x, x ∈ l → f a' x = g a' x) → for_each f a l = for_each g a l.
Proof.
  revert a. induction l as [| x l IH]; intros a Hfg; simpl; [done |].
  rewrite Hfg by apply list_elem_of_here.
  destruct (g a x) as [a' |]; simpl; [| done].
  apply IH. intros a'' y Hy. apply Hfg. by apply list_elem_of_further.
Qed.

Lemma for_each_fmap {A B C : Type} (f : A → B → option A) (h : C → B)
    (l : list C) (a : A) :
  for_each f a (h <$> l) = for_each (λ a' x, f a' (h x)) a l.
Proof.
  revert a. induction l as [| x l IH]; intros a; simpl; [done |].
  destruct (f a (h x)) as [a' |]; simpl; [apply IH | done].
Qed.

Lemma samples_of_nil (tag : string) : samples_of tag [] = [].
Proof. reflexivity. Qed.

Lemma samples_of_cons (tag t : string) (d : Z) (log : list (string * Z)) :
  samples_of tag ((t, d) :: log)
  = if String.eqb t tag then d :: samples_of tag log else samples_of tag log.
Proof.
  unfold samples_of. rewrite filter_cons. simpl.
  destruct (String.eqb_spec t tag) as [-> | Hne].
  - by rewrite decide_True.
  - by rewrite decide_False.
Qed.

Lemma samples_of_app (tag : string) (l1 l2 : list (string * Z)) :
  samples_of tag (l1 ++ l2) = samples_of tag l1 ++ samples_of tag l2.
Proof. unfold samples_of. by rewrite filter_app, fmap_app. Qed.

Lemma samples_of_absent (tag : string) (log : list (string * Z)) :
  tag ∉ log.*1 → samples_of tag log = [].
Proof.
  induction log as [| [t d] log IH]; [done |].
  rewrite fmap_cons, not_elem_of_cons. simpl. intros [Hne Hnot].
  rewrite samples_of_cons.
  destruct (String.eqb_spec t tag) as [-> | _]; [done | by apply IH].
Qed.

(** The loop over [j] folds the samples of [tag] in the order of the log. *)
Lemma update_loop_spec (tgs : list string) (durs : list Z) (tag : string)
    (st : float * float * Z) :
  length tgs = length durs →
  for_each (update_step tgs durs tag) st (seq 0 (length tgs))
  = Some (foldl welford st (samples_of tag (zip tgs durs))).
Proof.
  revert durs st. induction tgs as [| t tgs IH]; intros durs st Hlen.
  - reflexivity.
  - destruct durs as [| d durs]; [discriminate |].
    injection Hlen as Hlen.
    change (zip (t :: tgs) (d :: durs)) with ((t, d) :: zip tgs durs).
    rewrite samples_of_cons. simpl length. simpl seq.
    rewrite <- fmap_S_seq. simpl for_each.
    assert (update_step (t :: tgs) (d :: durs) tag st 0
            = Some (if String.eqb t tag then welford st d else st)) as ->.
    { unfold update_step. simpl. by destruct (String.eqb t tag). }
    simpl. rewrite for_each_fmap.
    rewrite (for_each_ext _ (update_step tgs durs tag)) by done.
    rewrite IH by done. by destruct (String.eqb t tag).
Qed.

Lemma aggregate_tag_spec (tgs : list string) (durs : list Z)
    (dat : gmap string (float * float * Z)) (tag : string) :
  length tgs = length durs →
  aggregate_tag tgs durs dat tag
  = Some (<[tag := foldl welford (init_stat dat tag)
                         (samples_of tag (zip tgs durs))]> dat).
Proof.
  intros Hlen. unfold aggregate_tag. by rewrite update_loop_spec.
Qed.

(** The loop over [i], for any vector of pairwise different tags. *)
Lemma aggregate_loop_spec (tgs : list string) (durs : list Z) (l : list string)
    (dat : gmap string (float * float * Z)) :
  length tgs = length durs →
  NoDup l →
  ∃ dat', for_each (aggregate_tag tgs durs) dat l = Some dat' ∧
    ∀ t, dat' !! t
         = if decide (t ∈ l)
           then Some (foldl welford (init_stat dat t)
                            (samples_of t (zip tgs durs)))
           else dat !! t.
Proof.
  intros Hlen. revert dat. induction l as [| tag l IH]; intros dat Hnd.
  - exists dat. split; [done |]. intros t.
    by rewrite decide_False by apply not_elem_of_nil.
  - apply NoDup_cons in Hnd as [Hnotin Hnd]. simpl.
    rewrite aggregate_tag_spec by done. simpl.
    destruct (IH (<[tag := foldl welford (init_stat dat tag)
                                  (samples_of tag (zip tgs durs))]> dat) Hnd)
      as (dat' & Hrun & Hlook).
    exists dat'. split; [done |]. intros t. rewrite Hlook.
    destruct (decide (t = tag)) as [-> | Hne].
    + rewrite decide_False by done.
      rewrite decide_True by apply list_elem_of_here.
      by rewrite lookup_insert_eq.
    + unfold init_stat. rewrite lookup_insert_ne by done.
      destruct (decide (t ∈ l)) as [Hin | Hnin].
      * by rewrite decide_True by (by apply list_elem_of_further).
      * rewrite decide_False; [done |].
        rewrite elem_of_cons. tauto.
Qed.

Lemma fst_zip_eq {A B : Type} (l : list A) (k : list B) :
  length l = length k → (zip l k).*1 = l.
Proof. intros H. apply fst_zip. lia. Qed.

Lemma snd_zip_eq {A B : Type} (l : list A) (k : list B) :
  length l = length k → (zip l k).*2 = k.
Proof. intros H. apply snd_zip. lia. Qed.

(** What one call of [aggregate] does when the two vectors are as long as
    each other. *)
Lemma aggregate_spec (s : CppTimer) :
  length (tags s) = length (durations s) →
  ∃ dat', aggregate s
          = Some (mkCppTimer (tics s) [] [] dat' (name s) (verbose s),
                  aggregate_warnings s) ∧
    ∀ t, dat' !! t = merged_stat (data s) (duration_log s) t.
Proof.
  intros Hlen.
  destruct (aggregate_loop_spec (tags s) (durations s) (unique_tags (tags s))
              (data s) Hlen (NoDup_unique_tags _)) as (dat' & Hrun & Hlook).
  exists dat'. split.
  - unfold aggregate. by rewrite Hrun.
  - intros t. rewrite Hlook. unfold merged_stat, duration_log.
    rewrite fst_zip_eq by done.
    destruct (decide (t ∈ tags s)).
    + by rewrite decide_True by (by apply elem_of_unique_tags).
    + by rewrite decide_False by (by rewrite elem_of_unique_tags).
Qed.
(** ** What every call preserves *)

Lemma toc_cases (tag : string) (thread_num now : Z) (s : CppTimer) :
  (tics s !! make_key tag thread_num = None ∧
   toc_record tag thread_num now s = None ∧
   toc tag thread_num now s = (s, toc_warning (make_key tag thread_num) s))
  ∨ (∃ start,
      tics s !! make_key tag thread_num = Some start ∧
      toc_record tag thread_num now s
      = Some (tag, to_ullong (duration_cast_us (clock_diff now start))) ∧
      toc tag thread_num now s
      = (mkCppTimer (delete (make_key tag thread_num) (tics s))
                    (tags s ++ [tag])
                    (durations s
                     ++ [to_ullong (duration_cast_us (clock_diff now start))])
                    (data s) (name s) (verbose s), [])).
Proof.
  unfold toc, toc_record, toc_find.
  destruct (tics s !! make_key tag thread_num) as [start |] eqn:E.
  - right. exists start. done.
  - left. done.
Qed.

(** The two vectors hold the first and the second components of the
    records; the calls keep it so, and none of them fails. *)
Lemma exec_records (c : call) (s : CppTimer) (log : list (string * Z)) :
  tags s = log.*1 → durations s = log.*2 →
  ∃ s' w, exec c s = Some (s', w) ∧
    tags s' = (record_call c s log).*1 ∧
    durations s' = (record_call c s log).*2 ∧
    verbose s' = verbose s ∧ name s' = name s.
Proof.
  intros Ht Hd. destruct c as [tag n now | tag n now | |]; simpl.
  - eauto 10.
  - destruct (toc_cases tag n now s) as [(_ & -> & ->) | (start & _ & -> & ->)].
    + eauto 10.
    + eexists _, _. split; [done |]. simpl.
      rewrite !fmap_app, Ht, Hd. done.
  - destruct (aggregate_spec s) as (dat' & -> & _).
    { by rewrite Ht, Hd, !length_fmap. }
    eauto 10.
  - eauto 10.
Qed.

Lemma run_records (calls : list call) (s : CppTimer) (log : list (string * Z)) :
  tags s = log.*1 → durations s = log.*2 →
  ∃ s' w log', run calls s = Some (s', w) ∧
    records calls s log = Some log' ∧
    tags s' = log'.*1 ∧ durations s' = log'.*2 ∧
    verbose s' = verbose s ∧ name s' = name s.
Proof.
  revert s log. induction calls as [| c calls IH]; intros s log Ht Hd.
  - exists s, [], log. done.
  - destruct (exec_records c s log Ht Hd) as (s1 & w1 & He & Ht1 & Hd1 & Hv1 & Hn1).
    destruct (IH s1 _ Ht1 Hd1) as (s' & w' & log' & Hr & Hrec & Ht' & Hd' & Hv' & Hn').
    exists s', (w1 ++ w'), log'. simpl. rewrite He. simpl. rewrite Hr, Hrec. simpl.
    repeat split; congruence.
Qed.

Lemma reachable_records (a : ctor_args) (calls : list call) :
  ∃ s w log, run calls (construct a) = Some (s, w) ∧
    records calls (construct a) [] = Some log ∧
    tags s = log.*1 ∧ durations s = log.*2 ∧
    verbose s = ctor_verbose a ∧ name s = ctor_name a.
Proof. by apply run_records. Qed.

Lemma reachable_lengths (a : ctor_args) (s : CppTimer) :
  reachable a s → length (tags s) = length (durations s).
Proof.
  intros (calls & w & Hrun).
  destruct (reachable_records a calls) as (s' & w' & log & Hrun' & _ & Ht & Hd & _).
  rewrite Hrun in Hrun'. injection Hrun' as <- <-.
  by rewrite Ht, Hd, !length_fmap.
Qed.

Lemma reachable_verbose (a : ctor_args) (s : CppTimer) :
  reachable a s → verbose s = ctor_verbose a.
Proof.
  intros (calls & w & Hrun).
  destruct (reachable_records a calls) as (s' & w' & log & Hrun' & _ & _ & _ & Hv & _).
  rewrite Hrun in Hrun'. by injection Hrun' as <- <-.
Qed.

(** The entry of a key in [tics] after a call. *)
Lemma exec_tics (key : string * Z) (c : call) (s s' : CppTimer) (w : list string) :
  exec c s = Some (s', w) →
  tics s' !! key = open_after key (tics s !! key) c.
Proof.
  destruct c as [tag n now | tag n now | |]; simpl.
  - intros [= <- <-]. simpl. case_decide as Hk.
    + rewrite Hk. apply lookup_insert_eq.
    + by apply lookup_insert_ne.
  - destruct (toc_cases tag n now s) as [(Hnone & _ & ->) | (start & _ & _ & ->)].
    + intros [= <- <-]. case_decide as Hk; [by rewrite <- Hk | done].
    + intros [= <- <-]. simpl. case_decide as Hk.
      * rewrite Hk. apply lookup_delete_eq.
      * by apply lookup_delete_ne.
  - unfold aggregate. destruct (for_each _ _ _); simpl; [| done].
    by intros [= <- <-].
  - by intros [= <- <-].
Qed.

Lemma run_tics (key : string * Z) (calls : list call) (s s' : CppTimer)
    (w : list string) :
  run calls s = Some (s', w) →
  tics s' !! key = foldl (open_after key) (tics s !! key) calls.
Proof.
  revert s w. induction calls as [| c calls IH]; intros s w; simpl.
  - by intros [= <- <-].
  - destruct (exec c s) as [[s1 w1] |] eqn:He; simpl; [| done].
    destruct (run calls s1) as [[s2 w2] |] eqn:Hr; simpl; [| done].
    intros [= <- <-].
    rewrite (IH _ _ Hr). by rewrite (exec_tics key _ _ _ _ He).
Qed.
(** ** Folding a log in two parts *)

Lemma with_log_lengths (s : CppTimer) (log : list (string * Z)) :
  length (tags (with_log s log)) = length (durations (with_log s log)).
Proof. simpl. by rewrite !length_fmap. Qed.

Lemma duration_log_with_log (s : CppTimer) (log : list (string * Z)) :
  duration_log (with_log s log) = log.
Proof. unfold duration_log. simpl. apply zip_fst_snd. Qed.

Lemma init_stat_Some (dat : gmap string (float * float * Z)) (tag : string)
    (st : float * float * Z) :
  dat !! tag = Some st → init_stat dat tag = st.
Proof. unfold init_stat. intros ->. by destruct st as [[mean M2] count]. Qed.

Lemma init_stat_lookup (dat1 dat2 : gmap string (float * float * Z))
    (tag : string) :
  dat1 !! tag = dat2 !! tag → init_stat dat1 tag = init_stat dat2 tag.
Proof. unfold init_stat. by intros ->. Qed.

Lemma elem_of_fst_app (tag : string) (l1 l2 : list (string * Z)) :
  tag ∈ (l1 ++ l2).*1 ↔ tag ∈ l1.*1 ∨ tag ∈ l2.*1.
Proof. by rewrite fmap_app, elem_of_app. Qed.

(** Folding [b2] into the result of folding [b1] is folding [b1 ++ b2]. *)
Lemma merged_stat_app (dat dat1 : gmap string (float * float * Z))
    (b1 b2 : list (string * Z)) (tag : string) :
  dat1 !! tag = merged_stat dat b1 tag →
  merged_stat dat1 b2 tag = merged_stat dat (b1 ++ b2) tag.
Proof.
  unfold merged_stat. intros H1. rewrite samples_of_app, foldl_app.
  destruct (decide (tag ∈ b2.*1)) as [H2 | H2].
  - rewrite (decide_True (P := tag ∈ (b1 ++ b2).*1))
      by (apply elem_of_fst_app; by right).
    f_equal. f_equal. destruct (decide (tag ∈ b1.*1)) as [Hb1 | Hb1].
    + by apply init_stat_Some.
    + rewrite (samples_of_absent tag b1) by done. simpl.
      by apply init_stat_lookup.
  - rewrite (samples_of_absent tag b2) by done. simpl. rewrite H1.
    destruct (decide (tag ∈ b1.*1)) as [Hb1 | Hb1].
    + by rewrite decide_True by (apply elem_of_fst_app; by left).
    + rewrite decide_False; [done |].
      rewrite elem_of_fst_app. tauto.
Qed.

(** The count after a fold of Welford steps. *)
Lemma welford_count (st : float * float * Z) (d : Z) :
  (welford st d).2 = to_ulong (st.2 + 1).
Proof. by destruct st as [[mean M2] count]. Qed.

Lemma foldl_welford_count (st : float * float * Z) (l : list Z) :
  0 ≤ st.2 →
  st.2 + Z.of_nat (length l) < 2 ^ ULONG_BITS →
  (foldl welford st l).2 = st.2 + Z.of_nat (length l).
Proof.
  revert st. induction l as [| d l IH]; intros st Hpos Hlt; simpl.
  - lia.
  - simpl length in Hlt.
    assert ((welford st d).2 = st.2 + 1) as Hc.
    { rewrite welford_count. unfold to_ulong. apply Z.mod_small. lia. }
    rewrite IH; rewrite Hc; lia.
Qed.
(** ** The messages name their tag *)

Lemma string_app_assoc (a b c : string) : (a +:+ b) +:+ c = a +:+ (b +:+ c).
Proof.
  induction a as [| x a IH]; [done |].
  change (String x ((a +:+ b) +:+ c) = String x (a +:+ (b +:+ c))).
  by rewrite IH.
Qed.

Lemma msg_not_started_names_tag (tag : string) :
  names_tag (msg_not_started tag) tag.
Proof.
  exists ("Timer " +:+ dquote),
         ((dquote +:+ " not started yet. " +:+ newline)
          +:+ ("Use tic(" +:+ dquote +:+ tag +:+ dquote +:+ ") to start the timer.")).
  unfold msg_not_started. by rewrite !string_app_assoc.
Qed.

Lemma msg_not_stopped_names_tag (tag : string) :
  names_tag (msg_not_stopped tag) tag.
Proof.
  exists ("Timer " +:+ dquote),
         ((dquote +:+ " not stopped yet. " +:+ newline)
          +:+ ("Use toc(" +:+ dquote +:+ tag +:+ dquote +:+ ") to stop the timer.")).
  unfold msg_not_stopped. by rewrite !string_app_assoc.
Qed.

Lemma aggregate_without_tics (s : CppTimer) :
  length (tags s) = length (durations s) →
  ∃ dat', aggregate s
          = Some (mkCppTimer (tics s) [] [] dat' (name s) (verbose s),
                  aggregate_warnings s) ∧
    aggregate (without_tics s)
    = Some (mkCppTimer ∅ [] [] dat' (name s) (verbose s), []).
Proof.
  intros Hlen. destruct (aggregate_spec s Hlen) as (dat' & Hrun & _).
  exists dat'. split; [done |].
  unfold aggregate in *. simpl.
  destruct (for_each _ _ _) as [dat |]; simpl in *; [| done].
  injection Hrun as ->. f_equal. f_equal.
  unfold aggregate_warnings. simpl. rewrite tics_keys_empty.
  by destruct (verbose s).
Qed.
(** ** Open intervals, read off the calls *)

Lemma snoc_eq_middle {A : Type} (l pre post : list A) (c x : A) :
  l ++ [c] = pre ++ x :: post →
  (post = [] ∧ l = pre ∧ c = x) ∨
  (∃ post', post = post' ++ [c] ∧ l = pre ++ x :: post').
Proof.
  destruct post as [| y post _] using rev_ind; intros Heq.
  - left. apply app_inj_tail in Heq as [-> ->]. done.
  - right. exists post.
    change (l ++ [c] = pre ++ (x :: post) ++ [y]) in Heq.
    rewrite app_assoc in Heq. apply app_inj_tail in Heq as [-> ->]. done.
Qed.

Lemma open_since_snoc (key : string * Z) (calls : list call) (c : call) :
  open_since key (calls ++ [c]) = open_after key (open_since key calls) c.
Proof. unfold open_since. by rewrite foldl_app. Qed.

Lemma open_after_untouched (key : string * Z) (o : option Z) (c : call) :
  ¬ touches key c → open_after key o c = o.
Proof.
  destruct c as [tag n now | tag n now | |]; simpl; intros Hc;
    try done; by rewrite decide_False.
Qed.

(** [key] is open with start time [t] exactly when the calls contain a
    [Tic] of the key at clock reading [t] that no later call touches. *)
Lemma open_since_Some (key : string * Z) (calls : list call) (t : Z) :
  open_since key calls = Some t ↔
  ∃ pre post tag thread_num,
    calls = pre ++ Tic tag thread_num t :: post ∧
    make_key tag thread_num = key ∧
    Forall (λ c, ¬ touches key c) post.
Proof.
  induction calls as [| c calls IH] using rev_ind.
  - split; [done |]. intros (pre & post & tag & n & Heq & _).
    by destruct pre.
  - rewrite open_since_snoc.
    destruct (decide (touches key c)) as [Hc | Hc].
    + split.
      * destruct c as [tag n now | tag n now | |]; simpl in *;
          rewrite ?decide_True by done; try done.
        intros [= ->]. exists calls, [], tag, n. done.
      * intros (pre & post & tag & n & Heq & Hkey & Hpost).
        apply snoc_eq_middle in Heq as [(-> & -> & ->) | (post' & -> & _)].
        -- simpl. by rewrite decide_True.
        -- apply Forall_app in Hpost as [_ Hlast].
           rewrite Forall_singleton in Hlast. contradiction.
    + rewrite open_after_untouched by done. rewrite IH. split.
      * intros (pre & post & tag & n & -> & Hkey & Hpost).
        exists pre, (post ++ [c]), tag, n. split; [| split; [done |]].
        -- by rewrite <- app_assoc.
        -- apply Forall_app. split; [done | by apply Forall_singleton].
      * intros (pre & post & tag & n & Heq & Hkey & Hpost).
        apply snoc_eq_middle in Heq as [(-> & -> & ->) | (post' & -> & ->)].
        -- by destruct Hc.
        -- exists pre, post', tag, n. split; [done |]. split; [done |].
           by apply Forall_app in Hpost as [? _].
Qed.

Lemma foldl_open_after_untouched (key : string * Z) (o : option Z)
    (calls : list call) :
  Forall (λ c, ¬ touches key c) calls → foldl (open_after key) o calls = o.
Proof.
  induction 1 as [| c calls Hc _ IH]; simpl; [done |].
  by rewrite open_after_untouched.
Qed.

(** Calls that do not touch a key leave its entry as it is. *)
Lemma run_untouched (key : string * Z) (calls : list call) (s s' : CppTimer)
    (w : list string) :
  Forall (λ c, ¬ touches key c) calls →
  run calls s = Some (s', w) →
  tics s' !! key = tics s !! key.
Proof.
  intros Hcalls Hrun. rewrite (run_tics key _ _ _ _ Hrun).
  by apply foldl_open_after_untouched.
Qed.
(** ** Threads that call tic and toc once *)

Section Jobs.

Variable tag : string.

Lemma done_count_insert (ts : list thread) (i : nat) (t t' : thread) :
  ts !! i = Some t →
  th_prog t ≠ [] →
  done_count (<[i := t']> ts)
  = if decide (th_prog t' = []) then S (done_count ts) else done_count ts.
Proof.
  unfold done_count. revert i.
  induction ts as [| x ts IH]; intros i Hi Ht; [done |].
  destruct i as [| i]; simpl in *.
  - injection Hi as ->. rewrite !filter_cons.
    rewrite (decide_False (P := th_prog t = [])) by done.
    by destruct (decide (th_prog t' = [])).
  - rewrite !filter_cons.
    destruct (decide (th_prog x = [])); simpl; rewrite (IH i Hi Ht);
      by destruct (decide (th_prog t' = [])).
Qed.

Lemma done_count_finished (ts : list thread) :
  Forall (λ t, th_prog t = []) ts → done_count ts = length ts.
Proof.
  unfold done_count. induction 1 as [| t ts Ht _ IH]; [done |].
  rewrite filter_cons, decide_True by done. simpl. by rewrite IH.
Qed.

Lemma done_count_initial (nums : list Z) :
  done_count (tic_toc_thread tag <$> nums) = 0%nat.
Proof.
  unfold done_count. induction nums as [| n nums IH]; [done |].
  rewrite fmap_cons, filter_cons. by rewrite decide_False.
Qed.

(** Threads with different numbers have different keys. *)
Lemma thread_keys_differ (ts : list thread) (i j : nat) (t u : thread) :
  NoDup (to_uint <$> (th_num <$> ts)) →
  ts !! i = Some t → ts !! j = Some u → i ≠ j →
  make_key tag (th_num u) ≠ make_key tag (th_num t).
Proof.
  intros Hnd Hi Hj Hij [= Heq]. apply Hij.
  apply (NoDup_lookup _ i j (to_uint (th_num t)) Hnd).
  - by rewrite !list_lookup_fmap, Hi.
  - rewrite !list_lookup_fmap, Hj. simpl. by rewrite Heq.
Qed.

Lemma phase_ok_frame (s s' : CppTimer) (t : thread) :
  tics s' !! make_key tag (th_num t) = tics s !! make_key tag (th_num t) →
  phase_ok s tag t → phase_ok s' tag t.
Proof. unfold phase_ok. by intros ->. Qed.

(** A step of thread [i] that changes [tics] at the key of the thread
    only keeps the other threads where they are. *)
Lemma phase_step (s s' : CppTimer) (ts : list thread) (i : nat)
    (t t' : thread) :
  NoDup (to_uint <$> (th_num <$> ts)) →
  Forall (phase_ok s tag) ts →
  ts !! i = Some t →
  (∀ key, key ≠ make_key tag (th_num t) → tics s' !! key = tics s !! key) →
  phase_ok s' tag t' →
  Forall (phase_ok s' tag) (<[i := t']> ts).
Proof.
  intros Hnd Hall Hi Hframe Ht'. apply Forall_lookup. intros j u Hj.
  destruct (decide (i = j)) as [<- | Hij].
  - rewrite list_lookup_insert_eq in Hj by (by eapply lookup_lt_Some).
    by injection Hj as <-.
  - rewrite list_lookup_insert_ne in Hj by done.
    apply (phase_ok_frame s).
    + apply Hframe. by eapply thread_keys_differ.
    + by eapply Forall_lookup_1.
Qed.

Lemma keys_step (s s' : CppTimer) (ts : list thread) (i : nat)
    (t t' : thread) :
  (∀ key, is_Some (tics s !! key) →
          ∃ u, u ∈ ts ∧ th_prog u ≠ [] ∧ key = make_key tag (th_num u)) →
  ts !! i = Some t →
  th_num t' = th_num t →
  (∀ key, is_Some (tics s' !! key) →
          (key = make_key tag (th_num t) ∧ th_prog t' ≠ []) ∨
          (key ≠ make_key tag (th_num t) ∧ is_Some (tics s !! key))) →
  ∀ key, is_Some (tics s' !! key) →
         ∃ u, u ∈ <[i := t']> ts ∧ th_prog u ≠ [] ∧
              key = make_key tag (th_num u).
Proof.
  intros Hkeys Hi Hnum Hcases key Hkey.
  assert (<[i := t']> ts !! i = Some t') as Hi'.
  { apply list_lookup_insert_eq. by eapply lookup_lt_Some. }
  destruct (Hcases key Hkey) as [[-> Hprog] | [Hne Hold]].
  - exists t'. split; [by eapply list_elem_of_lookup_2 |].
    split; [done | by rewrite Hnum].
  - destruct (Hkeys key Hold) as (u & Hu & Hprog & ->).
    apply list_elem_of_lookup in Hu as [j Hj].
    destruct (decide (i = j)) as [<- | Hij]; [congruence |].
    exists u. split; [| done].
    apply list_elem_of_lookup. exists j. by rewrite list_lookup_insert_ne.
Qed.

Lemma fmap_num_insert (ts : list thread) (i : nat) (t t' : thread) :
  ts !! i = Some t → th_num t' = th_num t →
  th_num <$> <[i := t']> ts = th_num <$> ts.
Proof.
  intros Hi Hnum. rewrite list_fmap_insert, Hnum.
  apply list_insert_id. by rewrite list_lookup_fmap, Hi.
Qed.

Variable nums : list Z.
Hypothesis nums_differ : NoDup (to_uint <$> nums).

(** The invariant holds at the start. *)
Lemma jobs_inv_initial (a : ctor_args) :
  jobs_inv tag nums (tic_toc_config a tag nums).
Proof.
  split; simpl.
  - rewrite <- list_fmap_compose. apply list_fmap_id.
  - apply Forall_fmap, Forall_forall. intros n _. left. done.
  - intros key [v Hv]. by rewrite lookup_empty in Hv.
  - by rewrite done_count_initial.
  - by rewrite done_count_initial.
  - done.
  - done.
Qed.

(** Entering a critical section keeps it. *)
Lemma jobs_inv_enter (i : nat) (t : thread) (c c' : config) :
  jobs_inv tag nums c → threads c !! i = Some t → th_prog t ≠ [] →
  enter_critical i t c = Next c' → jobs_inv tag nums c'.
Proof.
  intros [Hnums Hphase Hkeys Htags Hdurs Hemit Hdata] Hi Hprog.
  assert (NoDup (to_uint <$> (th_num <$> threads c))) as Hnd
    by (by rewrite Hnums).
  unfold enter_critical, set_thread. destruct (lock c); [done |].
  intros [= <-]. split; simpl.
  - by rewrite (fmap_num_insert _ _ t).
  - apply (phase_step (shared c) (shared c) _ i t _ Hnd Hphase Hi); [done |].
    by apply (Forall_lookup_1 _ _ _ _ Hphase Hi).
  - apply (keys_step (shared c) (shared c) _ i t
             (mkThread (th_num t) (th_prog t) (th_found t) true)
             Hkeys Hi eq_refl).
    simpl. intros key Hkey.
    destruct (decide (key = make_key tag (th_num t))) as [-> | Hne];
      [by left | by right].
  - by rewrite (done_count_insert _ _ t), decide_False.
  - by rewrite (done_count_insert _ _ t), decide_False.
  - done.
  - done.
Qed.

(** Every step keeps it. *)
Lemma jobs_inv_step (i : nat) (now : Z) (c c' : config) :
  jobs_inv tag nums c → step i now c = Next c' → jobs_inv tag nums c'.
Proof.
  intros Hinv. pose proof Hinv as [Hnums Hphase Hkeys Htags Hdurs Hemit Hdata].
  unfold step.
  destruct (threads c !! i) as [t |] eqn:Hi; simpl; [| done].
  assert (NoDup (to_uint <$> (th_num <$> threads c))) as Hnd
    by (by rewrite Hnums).
  pose proof (Forall_lookup_1 _ _ _ _ Hphase Hi) as Ht.
  destruct Ht as [(Hp & Hf & Hk) | [(Hp & Hf & Hk) | [(Hp & Hf & Hk)
                 | (Hp & Hf & Hk)]]]; rewrite Hp; simpl.
  - (* tic *)
    destruct (th_inside t);
      [| by apply jobs_inv_enter; [| | rewrite Hp]].
    unfold set_thread. intros [= <-]. split; simpl.
    + by rewrite (fmap_num_insert _ _ t).
    + apply (phase_step (shared c) (tic tag (th_num t) now (shared c))
               _ i t _ Hnd Hphase Hi).
      * intros key Hne. simpl. by apply lookup_insert_ne.
      * right. left. simpl. rewrite lookup_insert_eq. eauto.
    + apply (keys_step (shared c) (tic tag (th_num t) now (shared c))
               _ i t (mkThread (th_num t) [OpToc tag] None false)
               Hkeys Hi eq_refl).
      simpl. intros key Hkey.
      destruct (decide (key = make_key tag (th_num t))) as [-> | Hne].
      * left. done.
      * right. by rewrite lookup_insert_ne in Hkey.
    + by rewrite (done_count_insert _ _ t) by (done || by rewrite Hp).
    + by rewrite (done_count_insert _ _ t) by (done || by rewrite Hp).
    + done.
    + done.
  - (* the lookup of toc *)
    rewrite Hf. destruct (lock c); [done |].
    unfold toc_find, set_thread. destruct Hk as [start Hk]. rewrite Hk.
    intros [= <-]. split; simpl.
    + by rewrite (fmap_num_insert _ _ t).
    + apply (phase_step (shared c) (shared c) _ i t _ Hnd Hphase Hi).
      * done.
      * right. right. left. simpl. eauto.
    + apply (keys_step (shared c) (shared c) _ i t
               (mkThread (th_num t) [OpToc tag] (Some start) false)
               Hkeys Hi eq_refl).
      simpl. intros key Hkey.
      destruct (decide (key = make_key tag (th_num t))) as [-> | Hne];
        [by left | by right].
    + by rewrite (done_count_insert _ _ t) by (done || by rewrite Hp).
    + by rewrite (done_count_insert _ _ t) by (done || by rewrite Hp).
    + done.
    + done.
  - (* the critical section of toc *)
    destruct Hf as [start Hf]. rewrite Hf.
    destruct (th_inside t);
      [| by apply jobs_inv_enter; [| | rewrite Hp]].
    unfold set_thread. intros [= <-]. split; simpl.
    + by rewrite (fmap_num_insert _ _ t).
    + apply (phase_step (shared c)
               (toc_critical (make_key tag (th_num t)) start now (shared c))
               _ i t _ Hnd Hphase Hi).
      * intros key Hne. simpl. by apply lookup_delete_ne.
      * right. right. right. simpl. by rewrite lookup_delete_eq.
    + apply (keys_step (shared c)
               (toc_critical (make_key tag (th_num t)) start now (shared c))
               _ i t (mkThread (th_num t) [] None false) Hkeys Hi eq_refl).
      simpl. intros key Hkey. right.
      destruct (decide (key = make_key tag (th_num t))) as [-> | Hne].
      * rewrite lookup_delete_eq in Hkey. by destruct Hkey.
      * by rewrite lookup_delete_ne in Hkey.
    + rewrite (done_count_insert _ _ t) by (done || by rewrite Hp).
      simpl. rewrite Htags. by rewrite replicate_cons_app.
    + rewrite (done_count_insert _ _ t) by (done || by rewrite Hp).
      simpl. rewrite length_app, Hdurs. simpl. lia.
    + done.
    + done.
  - done.
Qed.

Lemma jobs_inv_run (sched : list (nat * Z)) (c c' : config) :
  jobs_inv tag nums c → run_schedule sched c = Next c' → jobs_inv tag nums c'.
Proof.
  revert c. induction sched as [| [i now] sched IH]; intros c Hinv; simpl.
  - by intros [= <-].
  - destruct (step i now c) as [c1 | |] eqn:Hstep; [| done | done].
    apply IH. by eapply jobs_inv_step.
Qed.

(** When all threads are done no interval is open and the log holds one
    record per thread. *)
Lemma jobs_inv_finished (c : config) :
  jobs_inv tag nums c → finished c →
  tics (shared c) = ∅ ∧
  tags (shared c) = replicate (length nums) tag ∧
  length (durations (shared c)) = length nums.
Proof.
  intros [Hnums Hphase Hkeys Htags Hdurs Hemit Hdata] Hfin.
  rewrite (done_count_finished _ Hfin) in Htags, Hdurs.
  rewrite <- Hnums, length_fmap. split; [| done].
  apply map_eq. intros key. rewrite lookup_empty.
  destruct (tics (shared c) !! key) as [v |] eqn:Hv; [| done].
  destruct (Hkeys key) as (u & Hu & Hprog & _); [by eauto |].
  unfold finished in Hfin. rewrite Forall_forall in Hfin.
  by destruct Hprog; apply Hfin.
Qed.

(** There are at most [2 ^ UINT_BITS] thread numbers. *)
Lemma nums_bounded : Z.of_nat (length nums) ≤ 2 ^ UINT_BITS.
Proof.
  assert (to_uint <$> nums ⊆+ seqZ 0 (2 ^ UINT_BITS)) as Hsub.
  { apply NoDup_submseteq; [done |]. intros x Hx.
    apply list_elem_of_fmap in Hx as (n & -> & _).
    apply elem_of_seqZ. unfold to_uint.
    pose proof (Z.mod_pos_bound n (2 ^ UINT_BITS)). unfold UINT_BITS in *. lia. }
  apply submseteq_length in Hsub.
  rewrite length_fmap, length_seqZ in Hsub. unfold UINT_BITS in *. lia.
Qed.

End Jobs.

Lemma samples_of_all (tag : string) (log : list (string * Z)) :
  Forall (λ p, p.1 = tag) log → samples_of tag log = log.*2.
Proof.
  induction 1 as [| [t d] log Ht _ IH]; [done |]. simpl in Ht. subst t.
  rewrite samples_of_cons, String.eqb_refl, IH. done.
Qed.

Lemma samples_of_replicate (tag : string) (n : nat) (durs : list Z) :
  length durs = n → samples_of tag (zip (replicate n tag) durs) = durs.
Proof.
  intros Hlen. rewrite samples_of_all.
  - apply snd_zip. rewrite length_replicate. lia.
  - apply Forall_forall. intros [t d] Hin. simpl.
    apply elem_of_zip_l in Hin. by apply elem_of_replicate in Hin as [-> _].
Qed.
(** ** Examples *)

Example to_double_ties_to_even :
  to_double (2 ^ 53 + 1) = 9007199254740992%float ∧
  to_double (2 ^ 53 + 3) = 9007199254740996%float.
Proof. split; vm_compute; reflexivity. Qed.

Example elapsed_microseconds :
  let s := (toc "x" 3 2500 (tic "x" 3 0 (construct Ctor_default))).1 in
  tags s = ["x"%string] ∧ durations s = [2] ∧ tics s = ∅.
Proof. repeat split; vm_compute; reflexivity. Qed.

Example unique_tags_sorted :
  unique_tags ["b"; "a"; "b"; "ab"; "a"]%string = ["a"; "ab"; "b"]%string.
Proof. vm_compute. reflexivity. Qed.

Example welford_three_samples :
  foldl welford (0%float, 0%float, 0) [1; 2; 3] = (2%float, 2%float, 3).
Proof. vm_compute. reflexivity. Qed.

(** The example of the spec: one interval of 100 microseconds, then a
    second one. *)
Example stats_of_two_cycles :
  let s0 := construct Ctor_default in
  let s1 := (toc "x" 0 100000 (tic "x" 0 0 s0)).1 in
  (s2 ← aggregate s1;
   let s3 := (toc "x" 0 300000 (tic "x" 0 200000 s2.1)).1 in
   s4 ← aggregate s3;
   Some (data s2.1 !! "x"%string, data s4.1 !! "x"%string))
  = Some (Some (100%float, 0%float, 1), Some (100%float, 0%float, 2)).
Proof. vm_compute. reflexivity. Qed.

(** The keys of [tics] are reported in the order of the map. *)
Example aggregate_warns_in_key_order :
  let s := tic "a" 1 0 (tic "b" 0 0 (tic "a" 0 0 (construct Ctor_default))) in
  snd <$> aggregate s
  = Some [msg_not_stopped "a"; msg_not_stopped "a"; msg_not_stopped "b"].
Proof. vm_compute. reflexivity. Qed.

(** A vector [durations] shorter than [tags] is read out of bounds. *)
Example aggregate_out_of_bounds :
  aggregate (mkCppTimer ∅ ["x"%string] [] ∅ "times" true) = None.
Proof. vm_compute. reflexivity. Qed.

(** Two intervals of "x" are closed before the [reset], one after it; the
    second [toc] in a row finds nothing. *)
Example closed_intervals_counted :
  closed_intervals "x"
    [Tic "x" 0 1; Toc "x" 0 2; Tic "x" 1 3; Toc "x" 1 4; Reset;
     Tic "x" 0 5; Tic "y" 0 6; Toc "y" 0 7; Toc "x" 0 8; Toc "x" 0 9; Aggregate]
    (construct Ctor_default) 0
  = Some 1%nat.
Proof. vm_compute. reflexivity. Qed.

(** Readings [2 ^ 63] nanoseconds apart: the signed difference wraps. *)
Example elapsed_wraps_at_int64 :
  durations
    (toc "x" 0 (2 ^ 62) (tic "x" 0 (- 2 ^ 62) (construct Ctor_default))).1
  = [18437520701672696841].
Proof. vm_compute. reflexivity. Qed.
(** ** toc without a matching tic *)

(** C2: when the key (tag, thread number) has no entry in [tics], [toc]
    passes the "not started" message to [warn] if [verbose] is set, emits
    nothing otherwise, and returns the timer as it was: [tics], the vectors
    [tags] and [durations] and the table [data] are all unchanged. *)
Theorem toc_not_started (tag : string) (thread_num now : Z) (s : CppTimer) :
  tics s !! make_key tag thread_num = None →
  toc tag thread_num now s
  = (s, if verbose s then [msg_not_started tag] else []).
Proof.
  intros Hkey. unfold toc, toc_find. rewrite Hkey. reflexivity.
Qed.

Lemma toc_not_started_witness :
  toc "x" 0 5 (construct Ctor_default)
  = (construct Ctor_default, [msg_not_started "x"]).
Proof.
  apply (toc_not_started "x" 0 5 (construct Ctor_default)). reflexivity.
Defined.

(** ** Aggregating in one call or in two *)

(** C1: whatever the table [data] holds and whatever the batch of
    (tag, elapsed) samples, one call of [aggregate] over the batch
    [b1 ++ b2] leaves the same table as a call over [b1] followed by a
    call over [b2], and that exactly, not merely up to rounding: the
    entry of every tag of the batch is the fold of the Welford steps over
    its samples in log order started from the entry the tag had (from
    zeros when it had none), and every other entry is kept. *)
Theorem aggregate_split (s : CppTimer) (b1 b2 : list (string * Z)) :
  ∃ s_once w_once s_first w_first s_twice w_twice,
    aggregate (with_log s (b1 ++ b2)) = Some (s_once, w_once) ∧
    aggregate (with_log s b1) = Some (s_first, w_first) ∧
    aggregate (with_log s_first b2) = Some (s_twice, w_twice) ∧
    data s_twice = data s_once ∧
    ∀ tag, data s_once !! tag
           = if decide (tag ∈ (b1 ++ b2).*1)
             then Some (foldl welford (init_stat (data s) tag)
                              (samples_of tag (b1 ++ b2)))
             else data s !! tag.
Proof.
  destruct (aggregate_spec (with_log s (b1 ++ b2)) (with_log_lengths _ _))
    as (dat & Hrun & Hdat).
  destruct (aggregate_spec (with_log s b1) (with_log_lengths _ _))
    as (dat1 & Hrun1 & Hdat1).
  set (s1 := mkCppTimer (tics (with_log s b1)) [] [] dat1
                        (name (with_log s b1)) (verbose (with_log s b1))) in *.
  destruct (aggregate_spec (with_log s1 b2) (with_log_lengths _ _))
    as (dat2 & Hrun2 & Hdat2).
  rewrite duration_log_with_log in Hdat, Hdat1, Hdat2.
  eexists _, _, _, _, _, _.
  split; [exact Hrun |]. split; [exact Hrun1 |]. split; [exact Hrun2 |].
  simpl. split.
  - apply map_eq. intros tag. rewrite Hdat, Hdat2.
    apply merged_stat_app. apply Hdat1.
  - intros tag. apply Hdat.
Qed.

(** ** Aggregating without new samples *)

(** C4: a call of [aggregate] on a timer whose two vectors are as long as
    each other keeps the entry of every tag that has no sample in the
    vectors, and adds no entry for it; when the vectors are empty the
    whole table [data] is as it was. *)
Theorem aggregate_keeps_other_entries (s : CppTimer) :
  length (tags s) = length (durations s) →
  ∃ s' w, aggregate s = Some (s', w) ∧
    (∀ tag, tag ∉ tags s → data s' !! tag = data s !! tag) ∧
    (tags s = [] → data s' = data s).
Proof.
  intros Hlen. destruct (aggregate_spec s Hlen) as (dat' & Hrun & Hdat).
  assert (∀ tag, tag ∉ tags s → dat' !! tag = data s !! tag) as Hkeep.
  { intros tag Hnot. rewrite Hdat. unfold merged_stat, duration_log.
    rewrite fst_zip_eq by done. by rewrite decide_False. }
  eexists _, _. split; [exact Hrun |]. simpl. split; [exact Hkeep |].
  intros Hnil. apply map_eq. intros tag. apply Hkeep.
  rewrite Hnil. apply not_elem_of_nil.
Qed.

Lemma aggregate_keeps_other_entries_witness :
  ∃ s' w, aggregate (with_log (construct Ctor_default) [("x"%string, 5)])
          = Some (s', w) ∧
    (∀ tag, tag ∉ tags (with_log (construct Ctor_default) [("x"%string, 5)]) →
       data s' !! tag = data (construct Ctor_default) !! tag) ∧
    (tags (with_log (construct Ctor_default) [("x"%string, 5)]) = [] →
     data s' = data (construct Ctor_default)).
Proof.
  apply (aggregate_keeps_other_entries
           (with_log (construct Ctor_default) [("x"%string, 5)])).
  reflexivity.
Defined.

(** ** The log and the open intervals across a call of [aggregate] *)

Lemma aggregate_warnings_verbose (s : CppTimer) (key : string * Z) :
  verbose s = true → is_Some (tics s !! key) →
  msg_not_stopped key.1 ∈ aggregate_warnings s.
Proof.
  intros Hv Hopen. unfold aggregate_warnings. rewrite Hv.
  apply list_elem_of_bind. exists key. split; [apply list_elem_of_here |].
  by apply elem_of_tics_keys.
Qed.

Lemma aggregate_warnings_quiet (s : CppTimer) :
  verbose s = false → aggregate_warnings s = [].
Proof. unfold aggregate_warnings. by intros ->. Qed.

Lemma elem_of_aggregate_warnings (s : CppTimer) (msg : string) :
  msg ∈ aggregate_warnings s →
  verbose s = true ∧
  ∃ key, is_Some (tics s !! key) ∧ msg = msg_not_stopped key.1.
Proof.
  unfold aggregate_warnings. destruct (verbose s); [| by intros ?%elem_of_nil].
  intros (key & Hmsg & Hin)%list_elem_of_bind. split; [done |].
  apply list_elem_of_singleton in Hmsg.
  exists key. split; [by apply elem_of_tics_keys | done].
Qed.

(** C3: a call of [aggregate] (on a timer whose two
    vectors are as long as each other, as they are in every timer that
    calls lead to from a constructor) empties both vectors and leaves
    [tics] as it was, so every open interval is still there with its start
    time.  After any further calls that do not touch the key of the
    interval, the next call of [aggregate] finds it open still, and passes
    the "not stopped" message of its tag to [warn] again when [verbose] is
    set; it passes nothing to [warn] when [verbose] is not set. *)
Theorem aggregate_clears_log_keeps_tics (s : CppTimer) :
  length (tags s) = length (durations s) →
  ∃ s' w, aggregate s = Some (s', w) ∧
    tags s' = [] ∧ durations s' = [] ∧ tics s' = tics s ∧
    ∀ key start, tics s !! key = Some start →
      tics s' !! key = Some start ∧
      ∀ calls, Forall (λ c, ¬ touches key c) calls →
        ∃ s1 w1 s2 w2,
          run calls s' = Some (s1, w1) ∧
          aggregate s1 = Some (s2, w2) ∧
          tics s1 !! key = Some start ∧
          tics s2 !! key = Some start ∧
          (verbose s = true → msg_not_stopped key.1 ∈ w2) ∧
          (verbose s = false → w2 = []).
Proof.
  intros Hlen. destruct (aggregate_spec s Hlen) as (dat' & Hrun & _).
  eexists _, _. split; [exact Hrun |]. simpl.
  do 3 (split; [done |]). intros key start Hopen. split; [done |].
  intros calls Hcalls.
  set (s' := mkCppTimer (tics s) [] [] dat' (name s) (verbose s)).
  destruct (run_records calls s' [] eq_refl eq_refl)
    as (s1 & w1 & log & Hcalls_run & _ & Ht1 & Hd1 & Hv1 & _).
  assert (tics s1 !! key = Some start) as Hopen1.
  { by rewrite (run_untouched key calls s' s1 w1 Hcalls Hcalls_run). }
  assert (length (tags s1) = length (durations s1)) as Hlen1.
  { by rewrite Ht1, Hd1, !length_fmap. }
  destruct (aggregate_spec s1 Hlen1) as (dat'' & Hrun' & _).
  eexists s1, w1, _, _. split; [exact Hcalls_run |]. split; [exact Hrun' |].
  simpl. split; [done |]. split; [done |]. split.
  - intros Hv. apply aggregate_warnings_verbose; [| by eauto].
    by rewrite Hv1.
  - intros Hv. apply aggregate_warnings_quiet. by rewrite Hv1.
Qed.

Lemma aggregate_clears_log_keeps_tics_witness :
  ∃ s' w, aggregate (tic "x" 0 7 (construct Ctor_default)) = Some (s', w) ∧
    tags s' = [] ∧ durations s' = [] ∧
    tics s' = tics (tic "x" 0 7 (construct Ctor_default)) ∧
    ∀ key start,
      tics (tic "x" 0 7 (construct Ctor_default)) !! key = Some start →
      tics s' !! key = Some start ∧
      ∀ calls, Forall (λ c, ¬ touches key c) calls →
        ∃ s1 w1 s2 w2,
          run calls s' = Some (s1, w1) ∧
          aggregate s1 = Some (s2, w2) ∧
          tics s1 !! key = Some start ∧
          tics s2 !! key = Some start ∧
          (verbose (tic "x" 0 7 (construct Ctor_default)) = true →
           msg_not_stopped key.1 ∈ w2) ∧
          (verbose (tic "x" 0 7 (construct Ctor_default)) = false → w2 = []).
Proof.
  apply (aggregate_clears_log_keeps_tics (tic "x" 0 7 (construct Ctor_default))).
  reflexivity.
Defined.

(** ** The diagnostics and the flag [verbose] *)

(** C6: in a timer reached from a constructor by any calls, [verbose] is
    the flag the constructor set.  A call of [toc] for a key with no entry
    in [tics] returns, and passes to [warn] a message naming the tag if and
    only if that flag is set.  A call of [aggregate] while [key] is open
    returns too, passes to [warn] a message naming the tag of [key] if and
    only if the flag is set, and folds and empties the log just as it does
    on the same timer without any open interval. *)
Theorem diagnostics_gated_by_verbose (a : ctor_args) (s : CppTimer) :
  reachable a s →
  verbose s = ctor_verbose a ∧
  (∀ tag thread_num now,
     tics s !! make_key tag thread_num = None →
     ∃ s' w, toc tag thread_num now s = (s', w) ∧
       ((∃ msg, msg ∈ w ∧ names_tag msg tag) ↔ ctor_verbose a = true) ∧
       (∀ msg, msg ∈ w → msg = msg_not_started tag)) ∧
  (∀ key,
     is_Some (tics s !! key) →
     ∃ s' w, aggregate s = Some (s', w) ∧
       ((∃ msg, msg ∈ w ∧ names_tag msg key.1) ↔ ctor_verbose a = true) ∧
       (∀ msg, msg ∈ w →
          ∃ key', is_Some (tics s !! key') ∧ msg = msg_not_stopped key'.1) ∧
       ∃ s0, aggregate (without_tics s) = Some (s0, []) ∧
         data s' = data s0 ∧ tags s' = tags s0 ∧ durations s' = durations s0).
Proof.
  intros Hreach.
  pose proof (reachable_verbose a s Hreach) as Hv.
  pose proof (reachable_lengths a s Hreach) as Hlen.
  split; [exact Hv |]. split.
  - intros tag n now Hkey.
    destruct (toc_cases tag n now s) as [(_ & _ & ->) | (start & Hsome & _)];
      [| congruence].
    eexists _, _. split; [done |]. rewrite <- Hv. unfold toc_warning. simpl. split.
    + destruct (verbose s).
      * split; [done |]. intros _. exists (msg_not_started tag).
        split; [apply list_elem_of_here | apply msg_not_started_names_tag].
      * split; [| done]. by intros (msg & ?%elem_of_nil & _).
    + intros msg. destruct (verbose s).
      * by intros ->%list_elem_of_singleton.
      * by intros ?%elem_of_nil.
  - intros key Hopen.
    destruct (aggregate_without_tics s Hlen) as (dat' & Hrun & Hrun0).
    eexists _, _. split; [exact Hrun |]. rewrite <- Hv. split; [| split].
    + split.
      * intros (msg & Hin & _). by apply elem_of_aggregate_warnings in Hin as [? _].
      * intros Hvs. exists (msg_not_stopped key.1).
        split; [by apply aggregate_warnings_verbose |].
        apply msg_not_stopped_names_tag.
    + intros msg Hin. by apply elem_of_aggregate_warnings in Hin as [_ ?].
    + eexists. split; [exact Hrun0 |]. done.
Qed.

Lemma diagnostics_gated_by_verbose_witness :
  verbose (tic "x" 0 7 (construct (Ctor_verbose false)))
  = ctor_verbose (Ctor_verbose false) ∧
  (∀ tag thread_num now,
     tics (tic "x" 0 7 (construct (Ctor_verbose false)))
       !! make_key tag thread_num = None →
     ∃ s' w, toc tag thread_num now (tic "x" 0 7 (construct (Ctor_verbose false)))
             = (s', w) ∧
       ((∃ msg, msg ∈ w ∧ names_tag msg tag)
        ↔ ctor_verbose (Ctor_verbose false) = true) ∧
       (∀ msg, msg ∈ w → msg = msg_not_started tag)) ∧
  (∀ key,
     is_Some (tics (tic "x" 0 7 (construct (Ctor_verbose false))) !! key) →
     ∃ s' w, aggregate (tic "x" 0 7 (construct (Ctor_verbose false)))
             = Some (s', w) ∧
       ((∃ msg, msg ∈ w ∧ names_tag msg key.1)
        ↔ ctor_verbose (Ctor_verbose false) = true) ∧
       (∀ msg, msg ∈ w →
          ∃ key', is_Some (tics (tic "x" 0 7 (construct (Ctor_verbose false)))
                             !! key')
                  ∧ msg = msg_not_stopped key'.1) ∧
       ∃ s0, aggregate (without_tics (tic "x" 0 7 (construct (Ctor_verbose false))))
             = Some (s0, []) ∧
         data s' = data s0 ∧ tags s' = tags s0 ∧ durations s' = durations s0).
Proof.
  apply (diagnostics_gated_by_verbose (Ctor_verbose false)
           (tic "x" 0 7 (construct (Ctor_verbose false)))).
  exists [Tic "x" 0 7], []. reflexivity.
Defined.

(** ** The entries of [tics] *)

(** C5: [tic] returns with the clock reading stored under its key,
    whatever was stored there, and with every other entry and the rest of
    the timer as they were.  After any calls from a constructor a key has
    an entry in [tics] exactly when the calls contain a [Tic] of the key
    that no later [Toc] of the key (and no [Reset]) follows, and the entry
    is the clock reading of that [Tic].  A [toc] that finds its key erases
    that key and no other. *)
Theorem tics_hold_open_intervals :
  (∀ tag thread_num now s,
     tics (tic tag thread_num now s)
     = <[make_key tag thread_num := now]> (tics s) ∧
     tics (tic tag thread_num now s) !! make_key tag thread_num = Some now ∧
     (∀ key, key ≠ make_key tag thread_num →
             tics (tic tag thread_num now s) !! key = tics s !! key) ∧
     tags (tic tag thread_num now s) = tags s ∧
     durations (tic tag thread_num now s) = durations s ∧
     data (tic tag thread_num now s) = data s) ∧
  (∀ a calls, ∃ s w,
     run calls (construct a) = Some (s, w) ∧
     ∀ key t,
       tics s !! key = Some t ↔
       ∃ pre post tag thread_num,
         calls = pre ++ Tic tag thread_num t :: post ∧
         make_key tag thread_num = key ∧
         Forall (λ c, ¬ touches key c) post) ∧
  (∀ tag thread_num now s start,
     tics s !! make_key tag thread_num = Some start →
     tics (toc tag thread_num now s).1
     = delete (make_key tag thread_num) (tics s) ∧
     tics (toc tag thread_num now s).1 !! make_key tag thread_num = None ∧
     ∀ key, key ≠ make_key tag thread_num →
            tics (toc tag thread_num now s).1 !! key = tics s !! key).
Proof.
  split; [| split].
  - intros tag n now s. simpl. split; [done |].
    split; [apply lookup_insert_eq |]. split; [| done].
    intros key Hne. by apply lookup_insert_ne.
  - intros a calls.
    destruct (reachable_records a calls) as (s & w & log & Hrun & _).
    exists s, w. split; [done |]. intros key t.
    rewrite (run_tics key _ _ _ _ Hrun). simpl. rewrite lookup_empty.
    apply open_since_Some.
  - intros tag n now s start Hkey.
    destruct (toc_cases tag n now s) as [(Hnone & _) | (start' & _ & _ & ->)];
      [congruence |].
    simpl. split; [done |]. split; [apply lookup_delete_eq |].
    intros key Hne. by apply lookup_delete_ne.
Qed.

Lemma tics_hold_open_intervals_witness :
  tics (tic "x" 0 9 (tic "x" 0 7 (construct Ctor_default))) !! ("x"%string, 0)
  = Some 9 ∧
  tics (toc "x" 0 12 (tic "x" 0 9 (construct Ctor_default))).1
  = delete ("x"%string, 0) (tics (tic "x" 0 9 (construct Ctor_default))).
Proof.
  destruct tics_hold_open_intervals as (Htic & _ & Htoc). split.
  - apply (Htic "x"%string 0 9 (tic "x" 0 7 (construct Ctor_default))).
  - apply (Htoc "x"%string 0 12 (tic "x" 0 9 (construct Ctor_default)) 9).
    reflexivity.
Defined.

(** ** The two vectors go together *)

(** C10: no sequence of calls from a constructor fails, and in the timer
    it leads to the vectors [tags] and [durations] are as long as each
    other and hold, index by index, the tag and the elapsed time that one
    and the same call of [toc] recorded ([aggregate] and [reset] having
    emptied both); so [aggregate] folds into the entry of a tag the
    durations recorded under that tag, and no others. *)
Theorem tags_and_durations_paired (a : ctor_args) (calls : list call) :
  ∃ s w log,
    run calls (construct a) = Some (s, w) ∧
    records calls (construct a) [] = Some log ∧
    length (tags s) = length (durations s) ∧
    tags s = log.*1 ∧ durations s = log.*2 ∧
    (∀ j, log !! j = (tag ← tags s !! j; d ← durations s !! j; Some (tag, d))) ∧
    ∃ s' w', aggregate s = Some (s', w') ∧
      ∀ tag, data s' !! tag
             = if decide (tag ∈ tags s)
               then Some (foldl welford (init_stat (data s) tag)
                                (samples_of tag log))
               else data s !! tag.
Proof.
  destruct (reachable_records a calls)
    as (s & w & log & Hrun & Hrec & Ht & Hd & _).
  assert (length (tags s) = length (durations s)) as Hlen.
  { by rewrite Ht, Hd, !length_fmap. }
  exists s, w, log. do 5 (split; [done |]). split.
  - intros j. rewrite Ht, Hd, !list_lookup_fmap.
    by destruct (log !! j) as [[tag d] |].
  - destruct (aggregate_spec s Hlen) as (dat' & Hagg & Hdat).
    eexists _, _. split; [exact Hagg |]. simpl. intros tag.
    rewrite Hdat. unfold merged_stat, duration_log.
    rewrite Ht, Hd, zip_fst_snd. done.
Qed.

(** ** ScopedTimer *)

(** C7, as the code has it: a block that declares a [ScopedTimer] for
    [tag] calls [tic(tag)] on entry and [toc(tag)] exactly once on exit,
    whichever way control leaves the body; when the body ends normally the
    block does what [tic(tag); body; toc(tag)] does.  The call of [toc] on
    exit closes exactly one interval of [tag] provided the key of the block
    is still open when the body is left, as it is, with the start time of
    the entry, after calls that do not touch the key; when the body has
    closed it (or has reset the timer) the call on exit closes none and
    warns "not started" when [verbose] is set. *)
Theorem scoped_block_as_tic_toc (tag : string) (thread_num t_in t_out : Z)
    (body : block_body) (clock : CppTimer)
    (e : exit_path) (c2 : CppTimer) (w : list string) :
  body (tic tag thread_num t_in clock) = Some (e, c2, w) →
  scoped_block (ST_clock_tag tag) thread_num t_in t_out body clock
  = Some (e, (toc tag thread_num t_out c2).1,
          w ++ (toc tag thread_num t_out c2).2) ∧
  (e = NormalExit →
   scoped_block (ST_clock_tag tag) thread_num t_in t_out body clock
   = explicit_block tag thread_num t_in t_out body clock) ∧
  (∀ start, tics c2 !! make_key tag thread_num = Some start →
     tags (toc tag thread_num t_out c2).1 = tags c2 ++ [tag] ∧
     durations (toc tag thread_num t_out c2).1
     = durations c2
       ++ [to_ullong (duration_cast_us (clock_diff t_out start))] ∧
     tics (toc tag thread_num t_out c2).1
     = delete (make_key tag thread_num) (tics c2) ∧
     (toc tag thread_num t_out c2).2 = []) ∧
  (tics c2 !! make_key tag thread_num = None →
   (toc tag thread_num t_out c2).1 = c2 ∧
   (toc tag thread_num t_out c2).2
   = if verbose c2 then [msg_not_started tag] else []) ∧
  (∀ calls w',
     Forall (λ c, ¬ touches (make_key tag thread_num) c) calls →
     run calls (tic tag thread_num t_in clock) = Some (c2, w') →
     tics c2 !! make_key tag thread_num = Some t_in).
Proof.
  intros Hbody. split; [| split; [| split; [| split]]].
  - unfold scoped_block, ScopedTimer_ctor, ScopedTimer_dtor. simpl.
    rewrite Hbody. simpl. by destruct (toc tag thread_num t_out c2).
  - intros ->. unfold scoped_block, explicit_block, ScopedTimer_ctor,
      ScopedTimer_dtor. simpl. by rewrite Hbody.
  - intros start Hopen.
    destruct (toc_cases tag thread_num t_out c2)
      as [(Hnone & _) | (start' & Hsome & _ & ->)]; [congruence |].
    simpl. by replace start' with start by congruence.
  - intros Hclosed.
    destruct (toc_cases tag thread_num t_out c2)
      as [(_ & _ & ->) | (start' & Hsome & _)]; [done | congruence].
  - intros calls w' Hcalls Hrun.
    rewrite (run_untouched _ calls _ _ _ Hcalls Hrun). simpl.
    apply lookup_insert_eq.
Qed.

Lemma scoped_block_as_tic_toc_witness :
  scoped_block (ST_clock_tag "y") 0 0 100000 empty_body (construct Ctor_default)
  = Some (NormalExit,
          (toc "y" 0 100000 (tic "y" 0 0 (construct Ctor_default))).1,
          [] ++ (toc "y" 0 100000 (tic "y" 0 0 (construct Ctor_default))).2) ∧
  tags (toc "y" 0 100000 (tic "y" 0 0 (construct Ctor_default))).1
  = [] ++ ["y"%string].
Proof.
  destruct (scoped_block_as_tic_toc "y" 0 0 100000 empty_body
              (construct Ctor_default) NormalExit
              (tic "y" 0 0 (construct Ctor_default)) [] eq_refl)
    as (Hblock & _ & Hone & _).
  split; [exact Hblock |].
  destruct (Hone 0 eq_refl) as (Htags & _). exact Htags.
Defined.

(** Two blocks for the same tag, one inside the other, on one thread: the
    inner block closes the interval, the outer one finds its key gone on
    exit, warns and closes none; two blocks were entered and left and one
    interval was recorded. *)
Lemma nested_scoped_blocks_close_one_interval :
  ∃ s,
    scoped_block (ST_clock_tag "y") 0 0 30000
      (scoped_block (ST_clock_tag "y") 0 10000 20000 empty_body)
      (construct Ctor_default)
    = Some (NormalExit, s, [msg_not_started "y"]) ∧
    tags s = ["y"%string] ∧ durations s = [10].
Proof. eexists. split; [reflexivity |]. split; reflexivity. Qed.


(** ** Threads calling tic and toc at the same time *)

(** The threads have pairwise different numbers and each calls [tic(tag)]
    and then [toc(tag)] once on a timer fresh from a constructor.  If the
    schedule lets no lookup of [toc] fall into a critical section of
    another thread and every thread gets done, then nothing has been passed
    to [warn], and a call of [aggregate] passes nothing to [warn] either and
    leaves the count of the tag equal to the number of threads. *)
Lemma jobs_counted_without_race (a : ctor_args) (tag : string) (nums : list Z)
    (sched : list (nat * Z)) (c : config) :
  NoDup (to_uint <$> nums) →
  run_schedule sched (tic_toc_config a tag nums) = Next c →
  finished c →
  emitted c = [] ∧
  ∃ s', aggregate (shared c) = Some (s', []) ∧
    count_of (data s') tag = Z.of_nat (length nums).
Proof.
  intros Hnd Hrun Hfin.
  pose proof (jobs_inv_run tag nums Hnd sched _ _
                (jobs_inv_initial tag nums a) Hrun) as Hinv.
  destruct (jobs_inv_finished tag nums c Hinv Hfin) as (Htics & Htags & Hdurs).
  split; [apply Hinv |].
  assert (length (tags (shared c)) = length (durations (shared c))) as Hlen.
  { by rewrite Htags, length_replicate, Hdurs. }
  destruct (aggregate_spec (shared c) Hlen) as (dat' & Hagg & Hdat).
  assert (aggregate_warnings (shared c) = []) as Hquiet.
  { unfold aggregate_warnings. rewrite Htics, tics_keys_empty.
    by destruct (verbose (shared c)). }
  rewrite Hquiet in Hagg. eexists. split; [exact Hagg |]. simpl.
  specialize (Hdat tag). unfold merged_stat, duration_log in Hdat.
  rewrite (inv_data _ _ _ Hinv), fst_zip_eq in Hdat by done.
  unfold count_of. rewrite Htags in Hdat.
  destruct (length nums) as [| n] eqn:Hn.
  - rewrite decide_False in Hdat by apply not_elem_of_nil.
    unfold init_stat. by rewrite Hdat, lookup_empty.
  - rewrite decide_True in Hdat by (simpl; apply list_elem_of_here).
    rewrite (init_stat_Some _ _ _ Hdat).
    rewrite samples_of_replicate by done.
    pose proof (nums_bounded nums Hnd) as Hbound.
    rewrite foldl_welford_count; unfold init_stat; rewrite lookup_empty; simpl;
      unfold ULONG_BITS, UINT_BITS in *; lia.
Qed.

(** Two threads whose calls interleave, with no lookup inside a critical
    section of the other thread: two samples are counted. *)
Example two_jobs_interleaved :
  ∃ c s',
    run_schedule [(0%nat, 0); (0%nat, 5); (1%nat, 10); (1%nat, 20);
                  (0%nat, 30); (1%nat, 40); (1%nat, 50); (1%nat, 70000);
                  (0%nat, 75000); (0%nat, 80000)]
                 (tic_toc_config Ctor_default "job" [0; 1]) = Next c ∧
    finished c ∧ emitted c = [] ∧
    durations (shared c) = [69; 79] ∧
    aggregate (shared c) = Some (s', []) ∧
    count_of (data s') "job" = 2.
Proof.
  eexists _, _. split; [vm_compute; reflexivity |].
  split; [repeat constructor |].
  split; [reflexivity |]. split; [reflexivity |].
  split; vm_compute; reflexivity.
Qed.

(** C9 fails on the code: thread 1 has made its call of [tic] and thread 0
    is inside the critical section of its own when thread 1 reaches the
    lookup [tics.find(key)] of [toc], which the code makes outside the
    critical section.  The lookup reads the map while the other thread
    writes it. *)
Theorem toc_lookup_races_with_tic :
  run_schedule [(1%nat, 0); (1%nat, 5); (0%nat, 10); (1%nat, 20)]
               (tic_toc_config Ctor_default "job" [0; 1]) = DataRace.
Proof. vm_compute. reflexivity. Qed.

(** ** More on [reset] and [aggregate] *)

(** X1: [reset] takes every timer that calls lead to from a constructor
    back to the timer the constructor made: the three containers and the
    table are empty, the name and the flag [verbose] are those of the
    construction. *)
Theorem reset_restores_constructed (a : ctor_args) (s : CppTimer) :
  reachable a s → reset s = construct a.
Proof.
  intros (calls & w & Hrun).
  destruct (reachable_records a calls)
    as (s' & w' & log & Hrun' & _ & _ & _ & Hv & Hn).
  rewrite Hrun in Hrun'. injection Hrun' as <- <-.
  unfold reset, construct. by rewrite Hv, Hn.
Qed.

Lemma reset_restores_constructed_witness :
  reset (tic "x" 0 7 (construct (Ctor_name "t"))) = construct (Ctor_name "t").
Proof.
  apply (reset_restores_constructed (Ctor_name "t")).
  exists [Tic "x" 0 7], []. reflexivity.
Defined.

(** X2: a second call of [aggregate] right after the first changes
    nothing: it returns the same timer and passes the same messages to
    [warn]. *)
Theorem aggregate_twice (s s' : CppTimer) (w : list string) :
  aggregate s = Some (s', w) → aggregate s' = Some (s', w).
Proof.
  unfold aggregate.
  destruct (for_each _ _ _) as [dat |]; simpl; [| done].
  intros [= <- <-]. reflexivity.
Qed.

Lemma aggregate_twice_witness :
  aggregate (mkCppTimer {[ ("y"%string, 0) := 3 ]} [] []
               {[ "x"%string := (5%float, 0%float, 1) ]} "times" true)
  = Some (mkCppTimer {[ ("y"%string, 0) := 3 ]} [] []
            {[ "x"%string := (5%float, 0%float, 1) ]} "times" true,
          [msg_not_stopped "y"]).
Proof.
  apply (aggregate_twice
           (with_log (mkCppTimer {[ ("y"%string, 0) := 3 ]} [] [] ∅ "times" true)
                     [("x"%string, 5)])).
  vm_compute. reflexivity.
Defined.

(** ** Counts *)

Lemma to_ulong_range (z : Z) : 0 ≤ to_ulong z < 2 ^ ULONG_BITS.
Proof. unfold to_ulong. apply Z.mod_pos_bound. by unfold ULONG_BITS. Qed.

Lemma to_ulong_idemp (z : Z) : to_ulong (to_ulong z) = to_ulong z.
Proof. unfold to_ulong. apply Z.mod_mod. by unfold ULONG_BITS. Qed.

Lemma to_ulong_small (z : Z) : 0 ≤ z < 2 ^ ULONG_BITS → to_ulong z = z.
Proof. unfold to_ulong. apply Z.mod_small. Qed.

Lemma to_ulong_add_l (a b : Z) : to_ulong (to_ulong a + b) = to_ulong (a + b).
Proof. unfold to_ulong. apply Zplus_mod_idemp_l. Qed.

(** The count after a fold: it wraps around like the [unsigned long] it
    is. *)
Lemma foldl_welford_count_wrap (st : float * float * Z) (l : list Z) :
  (foldl welford st l).2
  = if decide (l = []) then st.2 else to_ulong (st.2 + Z.of_nat (length l)).
Proof.
  revert st. induction l as [| d l IH]; intros st.
  - by rewrite decide_True.
  - simpl foldl. rewrite IH, welford_count.
    rewrite (decide_False (P := d :: l = [])) by done.
    destruct (decide (l = [])) as [-> | Hne].
    + reflexivity.
    + rewrite to_ulong_add_l. f_equal. simpl length. lia.
Qed.

Lemma count_of_lookup (dat : gmap string (float * float * Z)) (tag : string)
    (st : float * float * Z) :
  dat !! tag = Some st → count_of dat tag = st.2.
Proof. intros H. unfold count_of. by rewrite (init_stat_Some _ _ _ H). Qed.

Lemma samples_of_present (tag : string) (log : list (string * Z)) :
  tag ∈ log.*1 → samples_of tag log ≠ [].
Proof.
  induction log as [| [t d] log IH]; [by intros ?%elem_of_nil |].
  rewrite fmap_cons, elem_of_cons, samples_of_cons. simpl.
  destruct (String.eqb_spec t tag) as [-> | Hne]; [done |].
  intros [-> | Hin]; [done | by apply IH].
Qed.

Lemma aggregate_count (s : CppTimer) (tag : string) :
  length (tags s) = length (durations s) →
  ∃ dat', aggregate s
          = Some (mkCppTimer (tics s) [] [] dat' (name s) (verbose s),
                  aggregate_warnings s) ∧
    count_of dat' tag
    = if decide (tag ∈ tags s)
      then to_ulong (count_of (data s) tag
                     + Z.of_nat (length (samples_of tag (duration_log s))))
      else count_of (data s) tag.
Proof.
  intros Hlen. destruct (aggregate_spec s Hlen) as (dat' & Hrun & Hdat).
  exists dat'. split; [exact Hrun |].
  specialize (Hdat tag). unfold merged_stat in Hdat.
  assert ((duration_log s).*1 = tags s) as Hfst
    by (by apply fst_zip_eq).
  rewrite Hfst in Hdat.
  destruct (decide (tag ∈ tags s)) as [Hin | Hnin].
  - rewrite (count_of_lookup _ _ _ Hdat), foldl_welford_count_wrap.
    rewrite decide_False; [done |].
    apply samples_of_present. by rewrite Hfst.
  - unfold count_of. by rewrite (init_stat_lookup _ _ _ Hdat).
Qed.

(** X3: a call of [aggregate] adds to the count of a tag the number of
    its samples in the two vectors, modulo [2 ^ 64]; the count of a tag
    without samples stays. *)
Theorem aggregate_adds_samples_to_count (s : CppTimer) (tag : string) :
  length (tags s) = length (durations s) →
  ∃ s' w, aggregate s = Some (s', w) ∧
    count_of (data s') tag
    = if decide (tag ∈ tags s)
      then to_ulong (count_of (data s) tag
                     + Z.of_nat (length (samples_of tag (duration_log s))))
      else count_of (data s) tag.
Proof.
  intros Hlen. destruct (aggregate_count s tag Hlen) as (dat' & Hrun & Hcount).
  eexists _, _. split; [exact Hrun |]. exact Hcount.
Qed.

Lemma aggregate_adds_samples_to_count_witness :
  ∃ s' w,
    aggregate (with_log (construct Ctor_default)
                 [("x"%string, 5); ("y"%string, 6); ("x"%string, 7)])
    = Some (s', w) ∧
    count_of (data s') "x"
    = if decide ("x"%string
                 ∈ tags (with_log (construct Ctor_default)
                           [("x"%string, 5); ("y"%string, 6); ("x"%string, 7)]))
      then to_ulong (count_of (data (with_log (construct Ctor_default)
                           [("x"%string, 5); ("y"%string, 6); ("x"%string, 7)])) "x"
                     + Z.of_nat (length (samples_of "x" (duration_log
                          (with_log (construct Ctor_default)
                           [("x"%string, 5); ("y"%string, 6); ("x"%string, 7)])))))
      else count_of (data (with_log (construct Ctor_default)
                           [("x"%string, 5); ("y"%string, 6); ("x"%string, 7)])) "x".
Proof.
  apply (aggregate_adds_samples_to_count
           (with_log (construct Ctor_default)
              [("x"%string, 5); ("y"%string, 6); ("x"%string, 7)]) "x").
  reflexivity.
Defined.

(** X4: after a call of [aggregate] the table has an entry for a tag
    exactly when it had one before or the tag is in the vector [tags]: no
    entry is dropped, and none is made for a tag that was never closed. *)
Theorem aggregate_entries (s : CppTimer) (tag : string) :
  length (tags s) = length (durations s) →
  ∃ s' w, aggregate s = Some (s', w) ∧
    (is_Some (data s' !! tag) ↔ is_Some (data s !! tag) ∨ tag ∈ tags s).
Proof.
  intros Hlen. destruct (aggregate_spec s Hlen) as (dat' & Hrun & Hdat).
  eexists _, _. split; [exact Hrun |]. simpl.
  rewrite (Hdat tag). unfold merged_stat, duration_log.
  rewrite fst_zip_eq by done.
  destruct (decide (tag ∈ tags s)) as [Hin | Hnin].
  - split; [by right | eauto].
  - split; [by left | by intros [? | ?]].
Qed.

Lemma aggregate_entries_witness :
  ∃ s' w,
    aggregate (with_log (construct Ctor_default) [("x"%string, 5)])
    = Some (s', w) ∧
    (is_Some (data s' !! "x"%string)
     ↔ is_Some (data (with_log (construct Ctor_default) [("x"%string, 5)])
                  !! "x"%string)
       ∨ "x"%string ∈ tags (with_log (construct Ctor_default) [("x"%string, 5)])).
Proof.
  apply (aggregate_entries (with_log (construct Ctor_default) [("x"%string, 5)])).
  reflexivity.
Defined.

(** X5: the table that [aggregate] leaves depends on the two vectors only
    through the samples of each tag in their order: timers with the same
    table whose logs hold, tag by tag, the same samples in the same order
    are left with the same table, however the tags are interleaved. *)
Theorem aggregate_ignores_interleaving (s1 s2 : CppTimer) :
  length (tags s1) = length (durations s1) →
  length (tags s2) = length (durations s2) →
  data s1 = data s2 →
  (∀ tag, samples_of tag (duration_log s1) = samples_of tag (duration_log s2)) →
  ∃ s1' w1 s2' w2,
    aggregate s1 = Some (s1', w1) ∧ aggregate s2 = Some (s2', w2) ∧
    data s1' = data s2'.
Proof.
  intros Hlen1 Hlen2 Hdata Hsamples.
  destruct (aggregate_spec s1 Hlen1) as (dat1 & Hrun1 & Hdat1).
  destruct (aggregate_spec s2 Hlen2) as (dat2 & Hrun2 & Hdat2).
  eexists _, _, _, _. split; [exact Hrun1 |]. split; [exact Hrun2 |]. simpl.
  apply map_eq. intros tag. rewrite Hdat1, Hdat2. unfold merged_stat.
  rewrite Hdata, Hsamples.
  destruct (decide (tag ∈ (duration_log s1).*1)) as [H1 | H1],
           (decide (tag ∈ (duration_log s2).*1)) as [H2 | H2]; try done.
  - apply samples_of_present in H1. rewrite Hsamples in H1.
    by rewrite (samples_of_absent _ _ H2) in H1.
  - apply samples_of_present in H2. rewrite <- Hsamples in H2.
    by rewrite (samples_of_absent _ _ H1) in H2.
Qed.

Lemma aggregate_ignores_interleaving_witness :
  ∃ s1' w1 s2' w2,
    aggregate (with_log (construct Ctor_default)
                 [("a"%string, 1); ("b"%string, 2); ("a"%string, 3)])
    = Some (s1', w1) ∧
    aggregate (with_log (construct Ctor_default)
                 [("b"%string, 2); ("a"%string, 1); ("a"%string, 3)])
    = Some (s2', w2) ∧
    data s1' = data s2'.
Proof.
  apply (aggregate_ignores_interleaving
           (with_log (construct Ctor_default)
              [("a"%string, 1); ("b"%string, 2); ("a"%string, 3)])
           (with_log (construct Ctor_default)
              [("b"%string, 2); ("a"%string, 1); ("a"%string, 3)])).
  - reflexivity.
  - reflexivity.
  - reflexivity.
  - intros tag. rewrite !duration_log_with_log, !samples_of_cons, samples_of_nil.
    destruct (String.eqb_spec "a" tag) as [<- | Ha]; [reflexivity |].
    by destruct (String.eqb "b" tag).
Defined.

(** ** The number of closed intervals *)

Lemma count_of_empty (tag : string) : count_of ∅ tag = 0.
Proof. unfold count_of, init_stat. by rewrite lookup_empty. Qed.

Lemma exec_tally (tag : string) (c : call) (s : CppTimer)
    (log : list (string * Z)) (n : nat) :
  tally_ok tag s log n →
  ∃ s' w, exec c s = Some (s', w) ∧
    tally_ok tag s' (record_call c s log)
      (match c with
       | Reset => 0%nat
       | _ => if closes tag c s then S n else n
       end).
Proof.
  intros (Ht & Hd & Hrange & Hsum).
  destruct c as [t th now | t th now | |]; simpl.
  - eexists _, _. split; [done |]. done.
  - destruct (toc_cases t th now s)
      as [(Hnone & -> & ->) | (start & Hsome & -> & ->)].
    + eexists _, _. split; [done |]. unfold toc_find. rewrite Hnone.
      rewrite (bool_decide_eq_false_2 (is_Some None)) by (by intros [? ?]).
      rewrite andb_false_r. done.
    + eexists _, _. split; [done |]. unfold toc_find. rewrite Hsome.
      rewrite (bool_decide_eq_true_2 (is_Some (Some start))) by eauto.
      rewrite andb_true_r.
      split; [by simpl; rewrite fmap_app, Ht |].
      split; [by simpl; rewrite fmap_app, Hd |].
      split; [done |]. simpl data.
      rewrite samples_of_app, samples_of_cons, samples_of_nil, length_app.
      destruct (String.eqb_spec t tag) as [-> | Hne].
      * rewrite bool_decide_eq_true_2 by done. simpl length.
        replace (count_of (data s) tag
                 + Z.of_nat (length (samples_of tag log) + 1))
          with ((count_of (data s) tag
                 + Z.of_nat (length (samples_of tag log))) + 1) by lia.
        rewrite <- to_ulong_add_l, Hsum, to_ulong_add_l. f_equal. lia.
      * rewrite bool_decide_eq_false_2 by done. simpl length.
        by rewrite Nat.add_0_r.
  - assert (length (tags s) = length (durations s)) as Hlen
      by (by rewrite Ht, Hd, !length_fmap).
    destruct (aggregate_count s tag Hlen) as (dat' & -> & Hcount).
    eexists _, _. split; [done |]. split; [done |]. split; [done |]. simpl.
    rewrite Z.add_0_r, Hcount.
    unfold duration_log. rewrite Ht, Hd, zip_fst_snd.
    destruct (decide (tag ∈ log.*1)) as [Hin | Hnin].
    + split; [apply to_ulong_range |]. by rewrite to_ulong_idemp.
    + split; [done |].
      by rewrite (samples_of_absent _ _ Hnin), Z.add_0_r in Hsum.
  - eexists _, _. split; [done |]. split; [done |]. split; [done |]. simpl.
    rewrite count_of_empty. split; [by unfold in_ulong_range, ULONG_BITS | done].
Qed.

Lemma run_tally (tag : string) (calls : list call) (s : CppTimer)
    (log : list (string * Z)) (n : nat) :
  tally_ok tag s log n →
  ∃ s' w log' n',
    run calls s = Some (s', w) ∧
    records calls s log = Some log' ∧
    closed_intervals tag calls s n = Some n' ∧
    tally_ok tag s' log' n'.
Proof.
  revert s log n. induction calls as [| c calls IH]; intros s log n Hs.
  - exists s, [], log, n. done.
  - destruct (exec_tally tag c s log n Hs) as (s1 & w1 & He & Hs1).
    destruct (IH _ _ _ Hs1) as (s' & w' & log' & n' & Hr & Hrec & Hcl & Hs').
    exists s', (w1 ++ w'), log', n'. simpl. rewrite He. simpl.
    rewrite Hr, Hrec, Hcl. done.
Qed.

(** X7: whatever calls are made on a timer from a constructor, a call of
    [aggregate] after them leaves as the count of a tag the number of
    calls of [toc] for that tag that have found their key since the last
    [reset], modulo [2 ^ 64]: no closed interval is counted twice and none
    is left out. *)
Theorem count_is_number_of_closed_intervals (a : ctor_args)
    (calls : list call) (tag : string) :
  ∃ s w n s' w',
    run calls (construct a) = Some (s, w) ∧
    closed_intervals tag calls (construct a) 0 = Some n ∧
    aggregate s = Some (s', w') ∧
    count_of (data s') tag = to_ulong (Z.of_nat n).
Proof.
  assert (tally_ok tag (construct a) [] 0) as H0.
  { split; [done |]. split; [done |]. simpl. rewrite count_of_empty.
    split; [by unfold in_ulong_range, ULONG_BITS | done]. }
  destruct (run_tally tag calls _ _ _ H0)
    as (s & w & log & n & Hrun & _ & Hcl & Hs).
  destruct (exec_tally tag Aggregate s log n Hs)
    as (s' & w' & Hagg & _ & _ & Hrange & Hsum).
  exists s, w, n, s', w'. do 3 (split; [done |]).
  simpl in Hsum. rewrite Z.add_0_r in Hsum.
  rewrite <- Hsum. symmetry. by apply to_ulong_small.
Qed.

(** ** The duration that [toc] records *)

Lemma toc_after_tic (tag : string) (thread_num t0 t1 : Z) (s : CppTimer) :
  toc tag thread_num t1 (tic tag thread_num t0 s)
  = (mkCppTimer (delete (make_key tag thread_num) (tics s))
                (tags s ++ [tag])
                (durations s ++ [to_ullong (duration_cast_us (clock_diff t1 t0))])
                (data s) (name s) (verbose s), []).
Proof.
  destruct (toc_cases tag thread_num t1 (tic tag thread_num t0 s))
    as [(Hnone & _) | (start & Hsome & _ & ->)]; simpl in *.
  - by rewrite lookup_insert_eq in Hnone.
  - rewrite lookup_insert_eq in Hsome. injection Hsome as <-.
    by rewrite delete_insert_eq.
Qed.

Lemma to_int64_small (z : Z) : - 2 ^ 63 ≤ z < 2 ^ 63 → to_int64 z = z.
Proof.
  intros Hz. unfold to_int64, INT64_BITS.
  rewrite Z.mod_small by lia. lia.
Qed.

(** X8: [tic] at clock reading [t0] followed by [toc] of the same tag on
    the same thread at [t1], with a clock that has not gone back and the
    two readings less than [2 ^ 63] nanoseconds apart (so that their
    difference is a signed 64-bit count), records the tag with the whole
    microseconds between the two readings (an interval below one
    microsecond is recorded as 0), warns of nothing, leaves [data] alone
    and leaves every other key of [tics] as it was; the key itself is
    gone. *)
Theorem tic_toc_records_elapsed (tag : string) (thread_num t0 t1 : Z)
    (s : CppTimer) :
  0 ≤ t1 - t0 < 2 ^ 63 →
  toc tag thread_num t1 (tic tag thread_num t0 s)
  = (mkCppTimer (delete (make_key tag thread_num) (tics s))
                (tags s ++ [tag])
                (durations s ++ [(t1 - t0) / 1000])
                (data s) (name s) (verbose s), []).
Proof.
  intros Hrange. rewrite toc_after_tic. repeat f_equal.
  unfold clock_diff. rewrite to_int64_small by lia.
  unfold to_ullong, duration_cast_us, hr_clock_ticks_per_us, ULLONG_BITS.
  rewrite Z.quot_div_nonneg by lia.
  apply Z.mod_small. split.
  - apply Z.div_pos; lia.
  - apply Z.div_lt_upper_bound; lia.
Qed.

Lemma tic_toc_records_elapsed_witness :
  toc "x" 0 2999 (tic "x" 0 1000 (construct Ctor_default))
  = (mkCppTimer (delete (make_key "x" 0) (tics (construct Ctor_default)))
                (tags (construct Ctor_default) ++ ["x"%string])
                (durations (construct Ctor_default) ++ [(2999 - 1000) / 1000])
                (data (construct Ctor_default)) (name (construct Ctor_default))
                (verbose (construct Ctor_default)), []).
Proof.
  apply (tic_toc_records_elapsed "x" 0 1000 2999 (construct Ctor_default)).
  lia.
Defined.

(** X9: when the clock has gone back by a microsecond or more between
    [tic] and [toc] (the two readings again less than [2 ^ 63] nanoseconds
    apart), the negative number of microseconds is stored in the unsigned
    vector: the duration recorded is [2 ^ 64] less the microseconds the
    clock went back. *)
Theorem tic_toc_clock_gone_back (tag : string) (thread_num t0 t1 : Z)
    (s : CppTimer) :
  1000 ≤ t0 - t1 < 2 ^ 63 →
  durations (toc tag thread_num t1 (tic tag thread_num t0 s)).1
  = durations s ++ [2 ^ 64 - (t0 - t1) / 1000].
Proof.
  intros Hrange. rewrite toc_after_tic. simpl. f_equal. f_equal.
  unfold clock_diff. rewrite to_int64_small by lia.
  unfold to_ullong, duration_cast_us, hr_clock_ticks_per_us, ULLONG_BITS.
  replace (t1 - t0) with (- (t0 - t1)) by lia.
  rewrite Z.quot_opp_l by lia. rewrite Z.quot_div_nonneg by lia.
  assert (1 ≤ (t0 - t1) / 1000) by (apply Z.div_le_lower_bound; lia).
  assert ((t0 - t1) / 1000 < 2 ^ 63) by (apply Z.div_lt_upper_bound; lia).
  rewrite <- (Z_mod_plus_full _ 1).
  replace (- ((t0 - t1) / 1000) + 1 * 2 ^ 64)
    with (2 ^ 64 - (t0 - t1) / 1000) by lia.
  apply Z.mod_small. lia.
Qed.

Lemma tic_toc_clock_gone_back_witness :
  durations (toc "x" 0 1000 (tic "x" 0 3500 (construct Ctor_default))).1
  = durations (construct Ctor_default) ++ [2 ^ 64 - (3500 - 1000) / 1000].
Proof.
  apply (tic_toc_clock_gone_back "x" 0 3500 1000 (construct Ctor_default)).
  lia.
Defined.

(** X10: a second [toc] for a key that a first [toc] has just closed finds
    nothing: it leaves the timer as the first left it, and warns "not
    started" when [verbose] is set. *)
Theorem toc_twice (tag : string) (thread_num t1 t2 start : Z) (s : CppTimer) :
  tics s !! make_key tag thread_num = Some start →
  toc tag thread_num t2 (toc tag thread_num t1 s).1
  = ((toc tag thread_num t1 s).1,
     if verbose s then [msg_not_started tag] else []) ∧
  tags (toc tag thread_num t1 s).1 = tags s ++ [tag].
Proof.
  intros Hopen.
  destruct (toc_cases tag thread_num t1 s)
    as [(Hnone & _) | (start' & _ & _ & ->)]; [congruence |]. simpl.
  split; [| done].
  unfold toc, toc_find. simpl. by rewrite lookup_delete_eq.
Qed.

Lemma toc_twice_witness :
  toc "x" 0 9 (toc "x" 0 8 (tic "x" 0 7 (construct Ctor_default))).1
  = ((toc "x" 0 8 (tic "x" 0 7 (construct Ctor_default))).1,
     if verbose (tic "x" 0 7 (construct Ctor_default))
     then [msg_not_started "x"] else []) ∧
  tags (toc "x" 0 8 (tic "x" 0 7 (construct Ctor_default))).1
  = tags (tic "x" 0 7 (construct Ctor_default)) ++ ["x"%string].
Proof.
  apply (toc_twice "x" 0 8 9 7 (tic "x" 0 7 (construct Ctor_default))).
  reflexivity.
Defined.

(** ** What the calls never do *)

Lemma exec_quiet (c : call) (s s' : CppTimer) (w : list string) :
  verbose s = false → exec c s = Some (s', w) → w = [] ∧ verbose s' = false.
Proof.
  intros Hv. destruct c as [tag n now | tag n now | |]; simpl.
  - by intros [= <- <-].
  - destruct (toc_cases tag n now s) as [(_ & _ & ->) | (start & _ & _ & ->)];
      intros [= <- <-]; [| done].
    unfold toc_warning. by rewrite Hv.
  - unfold aggregate. destruct (for_each _ _ _); simpl; [| done].
    intros [= <- <-]. unfold aggregate_warnings. by rewrite Hv.
  - by intros [= <- <-].
Qed.

Lemma run_quiet (calls : list call) (s s' : CppTimer) (w : list string) :
  verbose s = false → run calls s = Some (s', w) → w = [].
Proof.
  revert s w. induction calls as [| c calls IH]; intros s w Hv; simpl.
  - by intros [= <- <-].
  - destruct (exec c s) as [[s1 w1] |] eqn:He; simpl; [| done].
    destruct (run calls s1) as [[s2 w2] |] eqn:Hr; simpl; [| done].
    intros [= <- <-].
    destruct (exec_quiet _ _ _ _ Hv He) as [-> Hv1].
    by rewrite (IH _ _ Hv1 Hr).
Qed.

(** X11: a timer constructed with [verbose] off passes nothing to [warn],
    whatever calls are made on it, and the calls all return. *)
Theorem not_verbose_never_warns (a : ctor_args) (calls : list call) :
  ctor_verbose a = false →
  ∃ s, run calls (construct a) = Some (s, []).
Proof.
  intros Hv.
  destruct (reachable_records a calls) as (s & w & log & Hrun & _).
  exists s. by rewrite (run_quiet calls (construct a) s w Hv Hrun) in Hrun.
Qed.

Lemma not_verbose_never_warns_witness :
  ∃ s, run [Toc "x" 0 1; Tic "y" 0 2; Aggregate]
           (construct (Ctor_verbose false)) = Some (s, []).
Proof.
  apply (not_verbose_never_warns (Ctor_verbose false)
           [Toc "x" 0 1; Tic "y" 0 2; Aggregate]).
  reflexivity.
Defined.

(** X12: calls of [tic] and [toc] never fail and never change the table
    [data]: the statistics move only in [aggregate] and [reset]. *)
Theorem tic_toc_leave_data (calls : list call) (s : CppTimer) :
  Forall is_tic_toc calls →
  ∃ s' w, run calls s = Some (s', w) ∧ data s' = data s.
Proof.
  intros Hcalls. revert s.
  induction Hcalls as [| c calls Hc _ IH]; intros s.
  - exists s, []. done.
  - destruct c as [tag n now | tag n now | |]; simpl in Hc; try done; simpl.
    + destruct (IH (tic tag n now s)) as (s' & w & -> & Hdata).
      eexists _, _. split; [done |]. done.
    + destruct (IH (toc tag n now s).1) as (s' & w & -> & Hdata).
      eexists _, _. split; [done |]. simpl. rewrite Hdata.
      by destruct (toc_cases tag n now s) as [(_ & _ & ->) | (st & _ & _ & ->)].
Qed.

Lemma tic_toc_leave_data_witness :
  ∃ s' w, run [Tic "x" 0 1; Toc "x" 0 2; Toc "y" 0 3] (construct Ctor_default)
          = Some (s', w) ∧
    data s' = data (construct Ctor_default).
Proof.
  apply (tic_toc_leave_data [Tic "x" 0 1; Toc "x" 0 2; Toc "y" 0 3]).
  repeat constructor.
Defined.

(** ** The order of the warnings and of the tags *)

#[global] Instance keypair_le_total : Total keypair_le.
Proof.
  intros [a n] [b m]. unfold keypair_le, keypair_leb. simpl.
  rewrite (String.compare_antisym b a).
  destruct (String.compare a b); simpl; auto.
  rewrite !Z.leb_le. lia.
Qed.

Lemma bind_warn {A : Type} (f : A → string) (l : list A) :
  l ≫= (λ x, warn (f x)) = f <$> l.
Proof.
  induction l as [| x l IH]; [done |].
  by rewrite bind_cons, fmap_cons, IH.
Qed.

Lemma tics_keys_NoDup (m : gmap (string * Z) Z) : NoDup (tics_keys m).
Proof.
  unfold tics_keys. rewrite merge_sort_Permutation.
  apply NoDup_fst_map_to_list.
Qed.

Lemma tics_keys_length (m : gmap (string * Z) Z) :
  length (tics_keys m) = size m.
Proof.
  unfold tics_keys. rewrite merge_sort_Permutation.
  by rewrite length_fmap, length_map_to_list.
Qed.

(** X13: with [verbose] set, [aggregate] warns once for every open key:
    the messages are those of the keys of [tics], each key once, in
    ascending order of (tag, thread number); there are as many messages as
    open intervals, also when several threads have the same tag open. *)
Theorem aggregate_warns_once_per_open_key (s s' : CppTimer) (w : list string) :
  verbose s = true →
  aggregate s = Some (s', w) →
  ∃ keys,
    w = (λ key : string * Z, msg_not_stopped key.1) <$> keys ∧
    NoDup keys ∧
    Sorted keypair_le keys ∧
    (∀ key, key ∈ keys ↔ is_Some (tics s !! key)) ∧
    length w = size (tics s).
Proof.
  intros Hv. unfold aggregate.
  destruct (for_each _ _ _) as [dat |]; simpl; [| done].
  intros [= <- <-]. exists (tics_keys (tics s)).
  unfold aggregate_warnings. rewrite Hv, bind_warn.
  split; [done |]. split; [apply tics_keys_NoDup |].
  split; [apply Sorted_merge_sort, _ |].
  split; [intros key; apply elem_of_tics_keys |].
  by rewrite length_fmap, tics_keys_length.
Qed.

Lemma aggregate_warns_once_per_open_key_witness :
  ∃ keys,
    [msg_not_stopped "a"; msg_not_stopped "a"; msg_not_stopped "b"]
    = (λ key : string * Z, msg_not_stopped key.1) <$> keys ∧
    NoDup keys ∧
    Sorted keypair_le keys ∧
    (∀ key, key ∈ keys
            ↔ is_Some (tics (tic "a" 1 0 (tic "b" 0 0
                               (tic "a" 0 0 (construct Ctor_default)))) !! key)) ∧
    length [msg_not_stopped "a"; msg_not_stopped "a"; msg_not_stopped "b"]
    = size (tics (tic "a" 1 0 (tic "b" 0 0 (tic "a" 0 0 (construct Ctor_default))))).
Proof.
  apply (aggregate_warns_once_per_open_key
           (tic "a" 1 0 (tic "b" 0 0 (tic "a" 0 0 (construct Ctor_default))))
           (tic "a" 1 0 (tic "b" 0 0 (tic "a" 0 0 (construct Ctor_default))))).
  - reflexivity.
  - vm_compute. reflexivity.
Defined.

Lemma tag_le_ne_lt (a b : string) : tag_le a b → a ≠ b → tag_lt a b.
Proof.
  unfold tag_le, tag_lt, String.leb, String.ltb.
  destruct (String.compare a b) eqn:E; try done.
  intros _ Hne. destruct Hne. by apply String.compare_eq_iff.
Qed.

Lemma unique_from_sorted (x : string) (l : list string) :
  StronglySorted tag_le (x :: l) → StronglySorted tag_lt (unique_from x l).
Proof.
  revert x. induction l as [| z l IH]; intros x Hs; simpl.
  - repeat constructor.
  - apply StronglySorted_inv in Hs as [Hs Hx].
    pose proof Hs as Hs'. apply StronglySorted_inv in Hs' as [Hl Hz].
    apply Forall_cons_1 in Hx as [Hxz Hxl].
    destruct (String.eqb_spec x z) as [-> | Hne].
    + apply IH. by constructor.
    + constructor; [by apply IH |].
      apply Forall_forall. intros y Hy.
      apply elem_of_unique_from in Hy as [-> | Hy].
      * by apply tag_le_ne_lt.
      * rewrite Forall_forall in Hxl, Hz.
        apply tag_le_ne_lt; [by apply Hxl |].
        intros ->. apply Hne. apply (anti_symm tag_le); [done | by apply Hz].
Qed.

(** X14: the vector [unique_tags] that [aggregate] makes with
    [std::sort] and [std::unique] holds the tags of the vector [tags],
    each once, in strictly ascending order. *)
Theorem unique_tags_ascending (tgs : list string) :
  StronglySorted tag_lt (unique_tags tgs) ∧
  NoDup (unique_tags tgs) ∧
  ∀ tag, tag ∈ unique_tags tgs ↔ tag ∈ tgs.
Proof.
  split; [| split; [apply NoDup_unique_tags | intros; apply elem_of_unique_tags]].
  unfold unique_tags.
  pose proof (StronglySorted_merge_sort tag_le tgs) as Hs.
  destruct (merge_sort tag_le tgs) as [| x l]; simpl; [constructor |].
  by apply unique_from_sorted.
Qed.

(** ** Blocks inside blocks *)

Lemma toc_open (tag : string) (thread_num now : Z) (s : CppTimer) (start : Z) :
  tics s !! make_key tag thread_num = Some start →
  toc tag thread_num now s
  = (mkCppTimer (delete (make_key tag thread_num) (tics s))
                (tags s ++ [tag])
                (durations s ++ [to_ullong (duration_cast_us (clock_diff now start))])
                (data s) (name s) (verbose s), []).
Proof.
  intros Hopen.
  destruct (toc_cases tag thread_num now s)
    as [(Hnone & _) | (start' & Hsome & _ & ->)]; [congruence |].
  by replace start' with start by congruence.
Qed.

(** X15: a block with a [ScopedTimer] for [outer] whose body is a block
    with a [ScopedTimer] for a different tag [inner], on one thread: both
    intervals are recorded, the inner one first, each with its own start
    time; nothing is passed to [warn] and both keys are gone from
    [tics]. *)
Theorem nested_scoped_blocks_of_different_tags (outer inner : string)
    (thread_num t0 t1 t2 t3 : Z) (clock : CppTimer) :
  outer ≠ inner →
  scoped_block (ST_clock_tag outer) thread_num t0 t3
    (scoped_block (ST_clock_tag inner) thread_num t1 t2 empty_body) clock
  = Some (NormalExit,
          mkCppTimer
            (delete (make_key outer thread_num)
               (delete (make_key inner thread_num) (tics clock)))
            (tags clock ++ [inner; outer])
            (durations clock
               ++ [to_ullong (duration_cast_us (clock_diff t2 t1));
                   to_ullong (duration_cast_us (clock_diff t3 t0))])
            (data clock) (name clock) (verbose clock),
          []).
Proof.
  intros Hne.
  assert (make_key inner thread_num ≠ make_key outer thread_num) as Hkeys
    by (intros [= ?]; congruence).
  unfold scoped_block, ScopedTimer_ctor, ScopedTimer_dtor, empty_body.
  cbn [ScopedTimer_init mem_initializer st_tag mbind option_bind].
  rewrite toc_after_tic. unfold mbind, option_bind. cbv beta iota.
  rewrite (toc_open outer thread_num t3 _ t0).
  - cbn [tics tags durations data name verbose tic app].
    rewrite <- !app_assoc. cbn [app].
    rewrite (delete_insert_ne (tics clock)) by done.
    by rewrite delete_insert_eq, delete_delete.
  - cbn [tics tic]. by rewrite lookup_delete_ne, lookup_insert_eq.
Qed.

Lemma nested_scoped_blocks_of_different_tags_witness :
  scoped_block (ST_clock_tag "f") 0 0 9000
    (scoped_block (ST_clock_tag "g") 0 2000 5000 empty_body)
    (construct Ctor_default)
  = Some (NormalExit,
          mkCppTimer
            (delete (make_key "f" 0)
               (delete (make_key "g" 0) (tics (construct Ctor_default))))
            (tags (construct Ctor_default) ++ ["g"; "f"]%string)
            (durations (construct Ctor_default)
               ++ [to_ullong (duration_cast_us (clock_diff 5000 2000));
                   to_ullong (duration_cast_us (clock_diff 9000 0))])
            (data (construct Ctor_default)) (name (construct Ctor_default))
            (verbose (construct Ctor_default)),
          []).
Proof.
  apply (nested_scoped_blocks_of_different_tags "f" "g" 0 0 2000 5000 9000
           (construct Ctor_default)).
  discriminate.
Defined.

(** ** One thread alone on the timer *)



(** A thread that makes two calls of [toc] after one [tic]. *)
Example solo_thread_tic_toc_toc :
  ∃ c,
    run_schedule [(0%nat, 1); (0%nat, 2000); (0%nat, 3); (0%nat, 4);
                  (0%nat, 7000); (0%nat, 8)]
                 (mkConfig (construct Ctor_default)
                    [mkThread 3 [OpTic "x"; OpToc "x"; OpToc "x"] None false]
                    None []) = Next c ∧
    finished c ∧
    run [Tic "x" 3 2000; Toc "x" 3 7000; Toc "x" 3 8] (construct Ctor_default)
    = Some (shared c, emitted c) ∧
    durations (shared c) = [5] ∧ emitted c = [msg_not_started "x"].
Proof.
  eexists. split; [vm_compute; reflexivity |].
  split; [repeat constructor |]. split; [vm_compute; reflexivity |].
  split; reflexivity.
Qed.


(** ** Two threads on one tag, and [reset] in the middle *)

(** X17: two threads with different (unsigned) numbers time the same tag
    one within the other: each [toc] finds the start of its own thread, so
    the two durations recorded run from [t0] to [t2] and from [t1] to
    [t3]; nothing is passed to [warn]. *)
Theorem same_tag_on_two_threads (tag : string) (n m t0 t1 t2 t3 : Z)
    (s : CppTimer) :
  to_uint n ≠ to_uint m →
  run [Tic tag n t0; Tic tag m t1; Toc tag n t2; Toc tag m t3] s
  = Some (mkCppTimer
            (delete (make_key tag m) (delete (make_key tag n) (tics s)))
            (tags s ++ [tag; tag])
            (durations s ++ [to_ullong (duration_cast_us (clock_diff t2 t0));
                             to_ullong (duration_cast_us (clock_diff t3 t1))])
            (data s) (name s) (verbose s),
          []).
Proof.
  intros Hnm.
  assert (make_key tag n ≠ make_key tag m) as Hkeys by (by intros [= ?]).
  unfold run, exec, mbind, option_bind. cbv beta iota. cbn [fst snd].
  rewrite (toc_open tag n t2 _ t0).
  2: { cbn [tics tic]. by rewrite lookup_insert_ne, lookup_insert_eq. }
  cbn [fst snd].
  rewrite (toc_open tag m t3 _ t1).
  2: { cbn [tics tic]. by rewrite lookup_delete_ne, lookup_insert_eq. }
  cbn [fst snd tics tags durations data name verbose tic app].
  rewrite <- !app_assoc. cbn [app].
  do 2 f_equal. f_equal.
  apply map_eq. intros k.
  destruct (decide (k = make_key tag m)) as [-> | Hm];
    [by rewrite !lookup_delete_eq |].
  rewrite !(lookup_delete_ne _ (make_key tag m)) by done.
  destruct (decide (k = make_key tag n)) as [-> | Hn];
    [by rewrite !lookup_delete_eq |].
  by rewrite !lookup_delete_ne, !lookup_insert_ne.
Qed.

Lemma same_tag_on_two_threads_witness :
  run [Tic "job" 0 0; Tic "job" 1 1000; Toc "job" 0 5000; Toc "job" 1 9000]
      (construct Ctor_default)
  = Some (mkCppTimer
            (delete (make_key "job" 1)
               (delete (make_key "job" 0) (tics (construct Ctor_default))))
            (tags (construct Ctor_default) ++ ["job"; "job"]%string)
            (durations (construct Ctor_default)
               ++ [to_ullong (duration_cast_us (clock_diff 5000 0));
                   to_ullong (duration_cast_us (clock_diff 9000 1000))])
            (data (construct Ctor_default)) (name (construct Ctor_default))
            (verbose (construct Ctor_default)),
          []).
Proof.
  apply (same_tag_on_two_threads "job" 0 1 0 1000 5000 9000
           (construct Ctor_default)).
  discriminate.
Defined.

Lemma run_app (calls1 calls2 : list call) (s : CppTimer) :
  run (calls1 ++ calls2) s
  = r1 ← run calls1 s; r2 ← run calls2 r1.1; Some (r2.1, r1.2 ++ r2.2).
Proof.
  revert s. induction calls1 as [| c calls1 IH]; intros s; simpl.
  - by destruct (run calls2 s) as [[s2 w2] |].
  - destruct (exec c s) as [[s1 w1] |]; simpl; [| done].
    rewrite IH. destruct (run calls1 s1) as [[s1' w1'] |]; simpl; [| done].
    destruct (run calls2 s1') as [[s2 w2] |]; simpl; [| done].
    by rewrite app_assoc.
Qed.

(** X18: a call of [reset] forgets what came before it: the timer that
    calls lead to after a [reset] is the one that the same calls lead to
    from the constructor, open intervals, log and statistics included;
    only the messages already passed to [warn] remain. *)
Theorem reset_forgets_history (a : ctor_args) (before after : list call) :
  ∃ s0 w0 s w,
    run before (construct a) = Some (s0, w0) ∧
    run after (construct a) = Some (s, w) ∧
    run (before ++ Reset :: after) (construct a) = Some (s, w0 ++ w).
Proof.
  destruct (reachable_records a before)
    as (s0 & w0 & log0 & Hrun0 & _ & _ & _ & Hv & Hn).
  destruct (reachable_records a after) as (s & w & log & Hrun & _).
  exists s0, w0, s, w. do 2 (split; [done |]).
  rewrite run_app, Hrun0. simpl.
  replace (reset s0) with (construct a)
    by (unfold reset, construct; by rewrite Hv, Hn).
  by rewrite Hrun.
Qed.
